(** * Singleton.cpp: lazy, eager and explicitly managed single instances

    A shallow embedding of the classes of [src/Singleton.cpp] and the
    properties its specification states about them.

    - [Clobal]      the template [Clobal<T>] (lines 99-123), a state and
                    error monad over the static slot, the heap and a trace;
    - [Singleton1]  the double-checked-locking holder (lines 10-33), as a
                    sequential function and as a thread machine;
    - [Singleton3]  the function-local static of [Singleton2] and of the
                    token-gated base [Singleton3<T>] (lines 40-86);
    - [Singleton4]  the eager holder (lines 139-156);
    - [ClobalCalls], [Singleton1Lifetime], [Singleton3Calls], [GetGlobal],
      [Singleton4Lifetime]: callers of the above, the owners of the shared
      instance, [get_global<T>] (lines 159-172) and the end of the
      program. *)

From stdpp Require Import gmap strings list fin_maps relations.
From Stdlib Require Import ZArith.

(** Addresses of objects created by [new]; a null pointer is [None]. *)
Abbreviation loc := positive (only parsing).

(* ===================================================================== *)
(** * [Clobal<T>]: the explicitly managed global instance *)
(* ===================================================================== *)

Module Clobal.

Section Clobal.
(** The managed type, the type of the argument packs of its constructors
    and the constructors themselves: [ctor args] is [None] when
    [T(args...)] exits by an exception. Constructors and the destructor
    of [T] are taken not to call back into [Clobal<T>]. *)
Context {T Args : Type}.
Variable ctor : Args → option T.

(** What a run makes observable: constructor and destructor calls and
    the lines written to [std::cout]. *)
Inductive event :=
  | Constructed (l : loc) (v : T)
  | Destroyed (l : loc) (v : T)
  | Cout (line : string).

(** [ptr] is the function-local [static T* ptr] of [GetPPtr] (line 120),
    [heap] the live objects of type [T]. *)
Record state := mkState {
  ptr : option loc;
  heap : gmap loc T;
  trace : list event
}.

(** How a call ends: it returns, the process aborts on a failed
    assertion, an exception leaves the call, or the behaviour is
    undefined (deleting what is not a live object). *)
Inductive outcome (A : Type) :=
  | Ret (a : A) (s : state)
  | Aborted (s : state)
  | Thrown (s : state)
  | Undefined.
Global Arguments Ret {A} a s.
Global Arguments Aborted {A} s.
Global Arguments Thrown {A} s.
Global Arguments Undefined {A}.

Definition M (A : Type) : Type := state → outcome A.

Global Instance M_ret : MRet M := λ A a s, Ret a s.
Global Instance M_bind : MBind M := λ A B f m s,
  match m s with
  | Ret a s' => f a s'
  | Aborted s' => Aborted s'
  | Thrown s' => Thrown s'
  | Undefined => Undefined
  end.

(** The value of type [T**] that [GetPPtr] returns: the address of the
    one static [ptr]. *)
Inductive pptr := addr_of_ptr.

Definition load (pp : pptr) : M (option loc) := λ s, Ret (ptr s) s.

Definition store (pp : pptr) (p : option loc) : M unit := λ s,
  Ret () {| ptr := p; heap := heap s; trace := trace s |}.

(** [new T(args...)]: a fresh address, then the constructor; when the
    constructor throws, the storage is released and nothing is left. *)
Definition new_ (args : Args) : M loc := λ s,
  let l := fresh (dom (heap s)) in
  match ctor args with
  | Some v =>
      Ret l {| ptr := ptr s; heap := <[l:=v]> (heap s);
               trace := trace s ++ [Constructed l v] |}
  | None => Thrown s
  end.

(** [delete p]: nothing for a null pointer, the destructor and the
    release for a live object, undefined otherwise. *)
Definition delete_ (p : option loc) : M unit := λ s,
  match p with
  | None => Ret () s
  | Some l =>
      match heap s !! l with
      | Some v =>
          Ret () {| ptr := ptr s; heap := delete l (heap s);
                    trace := trace s ++ [Destroyed l v] |}
      | None => Undefined
      end
  end.

(** [std::cout << line << std::endl]. *)
Definition cout (line : string) : M unit := λ s,
  Ret () {| ptr := ptr s; heap := heap s; trace := trace s ++ [Cout line] |}.

(** Modelled from the spec: the macro [assert], which line 106 uses and
    no included header of the file defines. The spec calls it a fatal
    assertion that aborts the process; that is the macro of <cassert>
    as long as [NDEBUG] is not defined, and the file never defines it. *)
Definition assert_ (b : bool) : M unit := λ s,
  if b then Ret () s else Aborted s.

(** Lines 119-122. [static T* ptr = nullptr] is initialised before the
    program runs; the call only takes its address. *)
Definition GetPPtr : M pptr := mret addr_of_ptr.

(** Line 102. *)
Definition Get : M (option loc) := pp ← GetPPtr; load pp.

(** Lines 104-108. *)
Definition New (args : Args) : M unit :=
  p ← Get;
  assert_ (bool_decide (p = None));;
  l ← new_ args;
  pp ← GetPPtr;
  store pp (Some l).

(** Lines 110-116. *)
Definition Delete : M unit :=
  p ← Get;
  if bool_decide (p ≠ None) then
    (q ← Get; delete_ q);;
    (pp ← GetPPtr; store pp None);;
    cout "Delete"
  else mret ().

(** The destructor calls a trace records. *)
Definition is_destroyed (e : event) : bool :=
  match e with Destroyed _ _ => true | _ => false end.

Definition is_constructed (e : event) : bool :=
  match e with Constructed _ _ => true | _ => false end.

Definition destructor_calls (tr : list event) : nat :=
  length (filter is_destroyed tr).

Definition constructor_calls (tr : list event) : nat :=
  length (filter is_constructed tr).

(** The slot owns a live object or is empty: what [New] and [Delete]
    maintain from the initial state. *)
Definition slot_ok (s : state) : Prop :=
  ∀ l, ptr s = Some l → is_Some (heap s !! l).

End Clobal.

Global Arguments event : clear implicits.
Global Arguments state : clear implicits.
Global Arguments outcome : clear implicits.
Global Arguments M : clear implicits.

(** Modelled from the spec: the type [Foo] of the scenario of section 8,
    which the source file does not declare: a class whose constructor
    takes two integers and keeps them. *)
Record Foo := mkFoo { foo_a : Z; foo_b : Z }.

Definition Foo_ctor (args : Z * Z) : option Foo :=
  Some (mkFoo (fst args) (snd args)).

(** The registry of [Foo] after [New(1,2)] at program start. *)
Definition scenario_state : state Foo :=
  {| ptr := Some 1%positive;
     heap := {[1%positive := mkFoo 1 2]};
     trace := [Constructed 1%positive (mkFoo 1 2)] |}.

End Clobal.

(* ===================================================================== *)
(** * [Singleton1]: double-checked locking *)
(* ===================================================================== *)

Module Singleton1.

(** Threads are numbered. *)
Abbreviation tid := nat (only parsing).

(** The two static members (lines 31-32), the live [Singleton1] objects,
    the use counts of the control blocks of the shared pointers, and the
    lines the constructor wrote to [std::cout]. A [std::shared_ptr] is
    the address it stores, [None] when empty; [m_mutex] is its owner. *)
Record shared := mkShared {
  m_instance_ptr : option loc;
  m_mutex : option tid;
  heap : gset loc;
  use_count : gmap loc nat;
  out : list string
}.

(** The program at its start. The class declares the two statics and the
    file leaves their definitions to the user of the class; defined
    without an initialiser they are an empty pointer and an unlocked
    mutex. *)
Definition initial : shared :=
  {| m_instance_ptr := None; m_mutex := None; heap := ∅;
     use_count := ∅; out := [] |}.

(** [std::lock_guard<std::mutex> lk(m_mutex)] (line 20): blocks, here
    [None], while another owner holds the mutex. *)
Definition lock (i : tid) (s : shared) : option shared :=
  match m_mutex s with
  | None =>
      Some {| m_instance_ptr := m_instance_ptr s; m_mutex := Some i;
              heap := heap s; use_count := use_count s; out := out s |}
  | Some _ => None
  end.

(** The end of the scope of [lk] (line 24). *)
Definition unlock (s : shared) : shared :=
  {| m_instance_ptr := m_instance_ptr s; m_mutex := None;
     heap := heap s; use_count := use_count s; out := out s |}.

(** Line 22: [new Singleton1] runs the private constructor (lines
    28-30), the temporary shared pointer takes the object with a use
    count of one and is moved into the empty [m_instance_ptr]. *)
Definition construct_and_assign (s : shared) : shared :=
  let l := fresh (heap s) in
  {| m_instance_ptr := Some l; m_mutex := m_mutex s;
     heap := {[l]} ∪ heap s;
     use_count := <[l:=1]> (use_count s);
     out := out s ++ ["constructor called"] |}.

(** Line 25: the returned handle is a copy of [m_instance_ptr], one more
    owner of the control block. *)
Definition copy_instance_ptr (s : shared) : option loc * shared :=
  (m_instance_ptr s,
   match m_instance_ptr s with
   | Some l =>
       {| m_instance_ptr := m_instance_ptr s; m_mutex := m_mutex s;
          heap := heap s; use_count := alter S l (use_count s);
          out := out s |}
   | None => s
   end).

(** Lines 18-26, run by thread [i] with no other thread running. *)
Definition get_instance (i : tid) (s : shared) : option (option loc * shared) :=
  s1 ← (if bool_decide (m_instance_ptr s = None) then
          s' ← lock i s;
          Some (unlock (if bool_decide (m_instance_ptr s' = None)
                        then construct_and_assign s' else s'))
        else Some s);
  Some (copy_instance_ptr s1).

(** [k] calls in a row by one thread; the handles come back in call
    order. *)
Fixpoint calls (k : nat) (i : tid) (s : shared) : option (list (option loc) * shared) :=
  match k with
  | 0 => Some ([], s)
  | S k' =>
      '(h, s1) ← get_instance i s;
      '(hs, s2) ← calls k' i s1;
      Some (h :: hs, s2)
  end.

(** How often the constructor ran. *)
Definition constructor_calls (s : shared) : nat :=
  length (filter (λ line, line = "constructor called") (out s)).

(** ** The same function, one shared access at a time *)

(** Where a thread stands in [get_instance]: before the statement of the
    given line, or back in its caller with the handle. *)
Inductive pc :=
  | L19 | L20 | L21 | L22 | L24 | L25
  | Returned (h : option loc).

(** One step of thread [i]; [None] when it is blocked or has returned. *)
Definition thread_step (i : tid) (p : pc) (s : shared) : option (pc * shared) :=
  match p with
  | L19 => Some (if bool_decide (m_instance_ptr s = None) then L20 else L25, s)
  | L20 => s' ← lock i s; Some (L21, s')
  | L21 => Some (if bool_decide (m_instance_ptr s = None) then L22 else L24, s)
  | L22 => Some (L24, construct_and_assign s)
  | L24 => Some (L25, unlock s)
  | L25 => let '(h, s') := copy_instance_ptr s in Some (Returned h, s')
  | Returned _ => None
  end.

(** A thread alone, for at most [fuel] steps. *)
Fixpoint run_alone (fuel : nat) (i : tid) (p : pc) (s : shared) : pc * shared :=
  match fuel with
  | 0 => (p, s)
  | S fuel' =>
      match thread_step i p s with
      | Some (p', s') => run_alone fuel' i p' s'
      | None => (p, s)
      end
  end.

(** How a step touches [m_instance_ptr]. *)
Inductive access := Read | Write.

(** How an object is declared: a plain object, or a [std::atomic] whose
    loads acquire and whose stores release. *)
Inductive object_kind := PlainObject | AtomicAcqRel.

(** Line 31 declares [m_instance_ptr] as [std::shared_ptr<Singleton1>],
    and the function uses no atomic operation and no fence on it. *)
Definition m_instance_ptr_kind : object_kind := PlainObject.

Definition next_access (p : pc) : option access :=
  match p with
  | L19 | L21 | L25 => Some Read
  | L22 => Some Write
  | L20 | L24 | Returned _ => None
  end.

(** Two accesses of different threads conflict when one of them writes
    and the object is not atomic. *)
Definition conflict (k : object_kind) (a b : access) : bool :=
  match k, a, b with
  | AtomicAcqRel, _, _ => false
  | PlainObject, Read, Read => false
  | PlainObject, _, _ => true
  end.

(** [n] threads and what they share. *)
Record config := mkConfig {
  pcs : list pc;
  sh : shared
}.

Definition start (n : nat) : config :=
  {| pcs := replicate n L19; sh := initial |}.

Definition config_step (i : tid) (c : config) : option config :=
  p ← pcs c !! i;
  '(p', s') ← thread_step i p (sh c);
  Some {| pcs := <[i:=p']> (pcs c); sh := s' |}.

(** A test that finds a data race, not all of them. When the next steps
    of threads [i] and [j] conflict and both are ready to run, either can
    be performed first and nothing orders the two accesses: that is a
    data race of C++. Accesses that lie apart in an interleaving can be
    unordered as well (a first read of line 19 made well before the write
    of line 22, or the read of line 25 by a thread that took no lock);
    this test does not report those, so [race c = false] does not say
    that an execution is free of data races. *)
Definition races_at (i j : tid) (c : config) : bool :=
  bool_decide (i ≠ j) &&
  match pcs c !! i, pcs c !! j with
  | Some p, Some q =>
      match next_access p, next_access q with
      | Some a, Some b => conflict m_instance_ptr_kind a b
      | _, _ => false
      end
  | _, _ => false
  end.

Definition race (c : config) : bool :=
  existsb (λ i, existsb (λ j, races_at i j c) (seq 0 (length (pcs c))))
          (seq 0 (length (pcs c))).

(** Executions with the data races that [race] finds: the interleavings
    of the threads, and no behaviour at all from a configuration in which
    two accesses race. Reaching [UndefinedBehaviour] shows that the
    program has a data race; not reaching it does not show that it has
    none. *)
Inductive status :=
  | Running (c : config)
  | UndefinedBehaviour.

Inductive step : status → status → Prop :=
  | step_thread i c c' :
      config_step i c = Some c' → step (Running c) (Running c')
  | step_race c :
      race c = true → step (Running c) UndefinedBehaviour.

(** The interleavings alone, as on a sequentially consistent machine
    that performs each shared access in one piece. *)
Inductive sc_step : config → config → Prop :=
  | sc_step_thread i c c' : config_step i c = Some c' → sc_step c c'.

(** A schedule names the thread that runs next. *)
Fixpoint run_schedule (sched : list tid) (c : config) : option config :=
  match sched with
  | [] => Some c
  | i :: sched' => c' ← config_step i c; run_schedule sched' c'
  end.

Definition returned (c : config) (i : tid) : option (option loc) :=
  match pcs c !! i with
  | Some (Returned h) => Some h
  | _ => None
  end.

Definition all_returned (c : config) : Prop :=
  ∀ i p, pcs c !! i = Some p → ∃ h, p = Returned h.

Definition in_critical_section (p : pc) : bool :=
  match p with L21 | L22 | L24 => true | _ => false end.

(** A thread past the critical section, or past a non-empty first read. *)
Definition after_publication (p : pc) : bool :=
  match p with L24 | L25 | Returned _ => true | _ => false end.

(** What every interleaving keeps true. *)
Record invariant (c : config) : Prop := mkInvariant {
  inv_owner : ∀ i p, pcs c !! i = Some p → in_critical_section p = true →
              m_mutex (sh c) = Some i;
  inv_held : ∀ i, m_mutex (sh c) = Some i →
             ∃ p, pcs c !! i = Some p ∧ in_critical_section p = true;
  inv_L22 : ∀ i, pcs c !! i = Some L22 → m_instance_ptr (sh c) = None;
  inv_after : ∀ i p, pcs c !! i = Some p → after_publication p = true →
              m_instance_ptr (sh c) ≠ None;
  inv_returned : ∀ i h, pcs c !! i = Some (Returned h) → h = m_instance_ptr (sh c);
  inv_empty : m_instance_ptr (sh c) = None →
              constructor_calls (sh c) = 0 ∧ heap (sh c) = ∅;
  inv_published : ∀ l, m_instance_ptr (sh c) = Some l →
                  constructor_calls (sh c) = 1 ∧ heap (sh c) = {[l]}
}.

(** The single-instance property at a configuration: the constructor ran
    at most once, and every call that has returned holds a handle to the
    one live object, which the constructor built. *)
Definition single_instance (c : config) : Prop :=
  constructor_calls (sh c) ≤ 1 ∧
  ∀ i h, returned c i = Some h →
    constructor_calls (sh c) = 1 ∧
    ∃ l, h = Some l ∧ m_instance_ptr (sh c) = Some l ∧ heap (sh c) = {[l]}.

(** The steps a thread has left at most. *)
Definition weight (p : pc) : nat :=
  match p with
  | L19 => 6 | L20 => 5 | L21 => 4 | L22 => 3 | L24 => 2 | L25 => 1
  | Returned _ => 0
  end.

Definition remaining (c : config) : nat := sum_list_with weight (pcs c).

(** Thread 0 takes the slow path up to the write of line 22 while thread 1
    has not yet done its first read. *)
Definition racing : config :=
  {| pcs := [L22; L19];
     sh := {| m_instance_ptr := None; m_mutex := Some 0; heap := ∅;
              use_count := ∅; out := [] |} |}.

End Singleton1.

(* ===================================================================== *)
(** * [Singleton2] and [Singleton3<T>]: the function-local static *)
(* ===================================================================== *)

Module Singleton3.

Abbreviation tid := nat (only parsing).

(** What [get_instance] depends on in the class it constructs:
    - [is_nothrow_constructible]: the constant
      [std::is_nothrow_constructible<T>::value], the operand of [noexcept]
      on line 64. The trait is asked without constructor arguments: it is
      true exactly when [T] has an accessible default constructor that is
      declared not to throw;
    - [ctor_throws k]: whether the run number [k] (from 0) of the
      constructor the accessor calls, [T{token()}] on line 65, ends in an
      exception. *)
Record class_info := mkClass {
  is_nothrow_constructible : bool;
  ctor_throws : nat → bool
}.

(** Lines 76-86. [DerivedSingle] declares [DerivedSingle(token)] and the
    deleted copy constructor only, so it has no default constructor; its
    constructor writes one line to [std::cout] and throws nothing. *)
Definition DerivedSingle : class_info :=
  {| is_nothrow_constructible := false; ctor_throws := λ _, false |}.

(** Lines 40-56. [Singleton2::get_instance] (lines 48-51) is the body of
    lines 65-66 without a [noexcept] clause, that is [noexcept(false)];
    this is also the value of the trait for [Singleton2], whose default
    constructor is private. The constructor writes one line and throws
    nothing. *)
Definition Singleton2 : class_info :=
  {| is_nothrow_constructible := false; ctor_throws := λ _, false |}.

(** The state of a block-scope static (lines 49 and 65), as the language
    keeps it: the first thread whose control passes the declaration
    initialises it, threads that arrive meanwhile wait, and an
    initialisation that exits by an exception leaves the variable
    uninitialised, to be tried again. *)
Inductive guard :=
  | Uninitialised
  | Initialising (i : tid)
  | Initialised.

(** [ctor_runs] counts the constructor calls started so far;
    [terminated] is set once [std::terminate] was called. *)
Record shared := mkShared {
  instance_guard : guard;
  ctor_runs : nat;
  terminated : bool
}.

Definition initial : shared :=
  {| instance_guard := Uninitialised; ctor_runs := 0; terminated := false |}.

(** What a call hands back: the one object [instance] of the accessor. *)
Inductive reference := instance.

Inductive outcome :=
  | Returns (r : reference)
  | Throws
  | Terminates
  | Waits.

Section get_instance.
Variable T : class_info.

(** Lines 64-67 (and 48-51), run with no other thread running. An
    exception of the constructor leaves the function when its exception
    specification is [noexcept(false)], and calls [std::terminate] when it
    is [noexcept(true)]. *)
Definition get_instance (s : shared) : outcome * shared :=
  if terminated s then (Terminates, s) else
  match instance_guard s with
  | Initialised => (Returns instance, s)
  | Initialising _ => (Waits, s)
  | Uninitialised =>
      if ctor_throws T (ctor_runs s) then
        if is_nothrow_constructible T then
          (Terminates,
           {| instance_guard := Uninitialised; ctor_runs := S (ctor_runs s);
              terminated := true |})
        else
          (Throws,
           {| instance_guard := Uninitialised; ctor_runs := S (ctor_runs s);
              terminated := false |})
      else
        (Returns instance,
         {| instance_guard := Initialised; ctor_runs := S (ctor_runs s);
            terminated := false |})
  end.

(** Lines 88-91: [main] asks for the instance twice. *)
Definition main (s : shared) : (outcome * outcome) * shared :=
  let '(r1, s1) := get_instance s in
  let '(r2, s2) := get_instance s1 in
  ((r1, r2), s2).

(** ** The same function, for threads that call it together *)

(** Where a thread stands: before the declaration of line 65, inside the
    constructor it runs as the initialising thread, before the [return] of
    line 66, back in its caller, or unwinding with the exception. *)
Inductive pc := L65 | L65_ctor | L66 | Returned (r : reference) | Threw.

Definition thread_step (i : tid) (p : pc) (s : shared) : option (pc * shared) :=
  if terminated s then None else
  match p with
  | L65 =>
      match instance_guard s with
      | Initialised => Some (L66, s)
      | Uninitialised =>
          Some (L65_ctor,
                {| instance_guard := Initialising i; ctor_runs := ctor_runs s;
                   terminated := false |})
      | Initialising _ => None
      end
  | L65_ctor =>
      if ctor_throws T (ctor_runs s) then
        if is_nothrow_constructible T then
          Some (L65_ctor,
                {| instance_guard := Uninitialised; ctor_runs := S (ctor_runs s);
                   terminated := true |})
        else
          Some (Threw,
                {| instance_guard := Uninitialised; ctor_runs := S (ctor_runs s);
                   terminated := false |})
      else
        Some (L66,
              {| instance_guard := Initialised; ctor_runs := S (ctor_runs s);
                 terminated := false |})
  | L66 => Some (Returned instance, s)
  | Returned _ | Threw => None
  end.

(** A thread alone, for at most [fuel] steps. *)
Fixpoint run_alone (fuel : nat) (i : tid) (p : pc) (s : shared) : pc * shared :=
  match fuel with
  | 0 => (p, s)
  | S fuel' =>
      match thread_step i p s with
      | Some (p', s') => run_alone fuel' i p' s'
      | None => (p, s)
      end
  end.

(** How a thread that has come to rest ended its call. *)
Definition outcome_of (p : pc) (s : shared) : outcome :=
  match p with
  | Returned r => Returns r
  | Threw => Throws
  | L65 | L65_ctor | L66 => if terminated s then Terminates else Waits
  end.

Record config := mkConfig {
  pcs : list pc;
  sh : shared
}.

Definition start (n : nat) : config :=
  {| pcs := replicate n L65; sh := initial |}.

Definition config_step (i : tid) (c : config) : option config :=
  p ← pcs c !! i;
  '(p', s') ← thread_step i p (sh c);
  Some {| pcs := <[i:=p']> (pcs c); sh := s' |}.

(** The guard is the only shared access and the runtime synchronises it:
    the executions are the interleavings. *)
Inductive step : config → config → Prop :=
  | step_thread i c c' : config_step i c = Some c' → step c c'.

Definition weight (p : pc) : nat :=
  match p with
  | L65 => 3 | L65_ctor => 2 | L66 => 1 | Returned _ | Threw => 0
  end.

(** A schedule names the thread that runs next. *)
Fixpoint run_schedule (sched : list tid) (c : config) : option config :=
  match sched with
  | [] => Some c
  | i :: sched' => c' ← config_step i c; run_schedule sched' c'
  end.

End get_instance.

(** A class after the pattern of [DerivedSingle] whose constructor throws
    on its first run and completes on the second. *)
Definition FailsOnce : class_info :=
  {| is_nothrow_constructible := false;
     ctor_throws := λ k, bool_decide (k = 0) |}.

(** A class that also declares a public default constructor [noexcept],
    next to a token constructor that throws: for it the constant of line
    64 is true. *)
Definition DefaultNoexcept : class_info :=
  {| is_nothrow_constructible := true; ctor_throws := λ _, true |}.

(** A thread past the declaration of line 65. *)
Definition past_declaration (p : pc) : bool :=
  match p with L66 | Returned _ => true | _ => false end.

(** What every interleaving keeps true when the constructor does not
    throw. *)
Record invariant (c : config) : Prop := mkInvariant {
  inv_running : terminated (sh c) = false;
  inv_ctor : ∀ i, pcs c !! i = Some L65_ctor →
             instance_guard (sh c) = Initialising i;
  inv_initialising : ∀ i, instance_guard (sh c) = Initialising i →
                     pcs c !! i = Some L65_ctor;
  inv_past : ∀ i p, pcs c !! i = Some p → past_declaration p = true →
             instance_guard (sh c) = Initialised;
  inv_no_throw : ∀ i, pcs c !! i ≠ Some Threw;
  inv_runs : ctor_runs (sh c) =
             match instance_guard (sh c) with Initialised => 1 | _ => 0 end
}.

(** The single-instance property at a configuration: the constructor was
    called at most once, and a call has returned only after that one
    call completed. *)
Definition single_instance (c : config) : Prop :=
  ctor_runs (sh c) ≤ 1 ∧
  ∀ i r, pcs c !! i = Some (Returned r) →
    ctor_runs (sh c) = 1 ∧ instance_guard (sh c) = Initialised.

Definition all_returned (c : config) : Prop :=
  ∀ i p, pcs c !! i = Some p → ∃ r, p = Returned r.

Definition remaining (c : config) : nat := sum_list_with weight (pcs c).

Definition never_throws (T : class_info) : Prop :=
  ∀ k, ctor_throws T k = false.

End Singleton3.

(* ===================================================================== *)
(** * [Singleton4]: the eager instance *)
(* ===================================================================== *)

Module Singleton4.

(** The static member [m_instance] (line 141), constructed or not yet, and
    the lines written to [std::cout]. *)
Record program := mkProgram {
  m_instance_constructed : bool;
  out : list string
}.

(** The program as loaded, before its dynamic initialisers ran. *)
Definition loaded : program :=
  {| m_instance_constructed := false; out := [] |}.

(** Line 156, the definition of [m_instance]: its initialisation runs the
    private constructor of lines 152-154, before [main] starts. *)
Definition static_initialization (s : program) : program :=
  {| m_instance_constructed := true;
     out := out s ++ ["constructor called"] |}.

(** The program when [main] starts. *)
Definition at_main : program := static_initialization loaded.

(** The object a returned reference denotes. *)
Inductive reference := m_instance.

(** Lines 143-145. *)
Definition get_instance (s : program) : reference * program := (m_instance, s).

(** [k] calls in a row. *)
Fixpoint calls (k : nat) (s : program) : list reference * program :=
  match k with
  | 0 => ([], s)
  | S k' =>
      let '(r, s1) := get_instance s in
      let '(rs, s2) := calls k' s1 in
      (r :: rs, s2)
  end.

Definition constructor_calls (s : program) : nat :=
  length (filter (λ line, line = "constructor called") (out s)).

End Singleton4.

(* ===================================================================== *)
(** * Callers: sequences of calls, owners of handles, the whole run *)
(* ===================================================================== *)

Module ClobalCalls.
Import Clobal.

Section calls.
Context {T Args : Type}.
Variable ctor : Args → option T.

(** What a user of [Clobal<T>] can call (lines 102-116). *)
Inductive call :=
  | CallGet
  | CallNew (args : Args)
  | CallDelete.

Definition do_call (c : call) : M T unit :=
  match c with
  | CallGet => _ ← Get; mret ()
  | CallNew args => New ctor args
  | CallDelete => Delete
  end.

(** A caller that makes the calls in order: it catches what a constructor
    throws and goes on; a failed assertion ends the process. *)
Fixpoint run (cs : list call) (s : state T) : outcome T unit :=
  match cs with
  | [] => Ret () s
  | c :: cs' =>
      match do_call c s with
      | Ret _ s' => run cs' s'
      | Thrown s' => run cs' s'
      | Aborted s' => Aborted s'
      | Undefined => Undefined
      end
  end.

(** The program at its start: [ptr] is [nullptr] (line 120), no object of
    type [T] lives, nothing has happened. *)
Definition initial : state T :=
  {| ptr := None; heap := ∅; trace := [] |}.

(** At most one instance: the only live object is the one the slot owns,
    and the constructor calls exceed the destructor calls by that one. *)
Definition one_instance (s : state T) : Prop :=
  match ptr s with
  | Some l =>
      (∃ v, heap s = {[l := v]}) ∧
      constructor_calls (trace s) = S (destructor_calls (trace s))
  | None =>
      heap s = ∅ ∧ constructor_calls (trace s) = destructor_calls (trace s)
  end.

End calls.

End ClobalCalls.

Module Singleton1Lifetime.
Import Singleton1.

(** Lines 15-17: the destructor writes its line; the storage of the object
    is given back. *)
Definition destructor (l : loc) (s : shared) : shared :=
  {| m_instance_ptr := m_instance_ptr s; m_mutex := m_mutex s;
     heap := heap s ∖ {[l]}; use_count := use_count s;
     out := out s ++ ["destructor called"] |}.

(** An owner of the control block of [l] is destroyed (the destructor of
    [std::shared_ptr], for the [ptr] of line 12): the use count drops, and
    the last owner deletes the object. *)
Definition release (l : loc) (s : shared) : shared :=
  match use_count s !! l with
  | Some (S (S n)) =>
      {| m_instance_ptr := m_instance_ptr s; m_mutex := m_mutex s;
         heap := heap s; use_count := <[l:=S n]> (use_count s); out := out s |}
  | Some (S 0) =>
      destructor l
        {| m_instance_ptr := m_instance_ptr s; m_mutex := m_mutex s;
           heap := heap s; use_count := delete l (use_count s); out := out s |}
  | Some 0 | None => s
  end.

(** Who can own the instance: the static [m_instance_ptr] (line 31),
    destroyed when the program ends, and the handles [get_instance]
    returned (line 25), destroyed when their holders are done. *)
Inductive owner :=
  | Static
  | Handle (h : option loc).

Global Instance owner_eq_dec : EqDecision owner.
Proof. solve_decision. Defined.

Definition let_go (s : shared) (o : owner) : shared :=
  match o with
  | Static =>
      match m_instance_ptr s with
      | Some l =>
          release l {| m_instance_ptr := None; m_mutex := m_mutex s;
                       heap := heap s; use_count := use_count s; out := out s |}
      | None => s
      end
  | Handle (Some l) => release l s
  | Handle None => s
  end.

Definition destructor_calls (s : shared) : nat :=
  length (filter (λ line, line = "destructor called") (out s)).

(** The handles that calls have returned so far. *)
Definition handles (c : config) : nat :=
  sum_list_with (λ p, match p with Returned _ => 1 | _ => 0 end) (pcs c).

(** Every owner is counted: the use count of the instance is one for the
    static pointer and one for each returned handle. *)
Definition counted (c : config) : Prop :=
  match m_instance_ptr (sh c) with
  | Some l => use_count (sh c) !! l = Some (S (handles c))
  | None => handles c = 0
  end.

(** The owners still to go: all of them own [l], the use count is their
    number, the object lives, and the static pointer is among them
    exactly when it is still set. *)
Definition owners_left (l : loc) (s : shared) (os : list owner) : Prop :=
  use_count s !! l = Some (length os) ∧
  l ∈ heap s ∧
  Forall (λ o, o = Static ∨ o = Handle (Some l)) os ∧
  (m_instance_ptr s = Some l ∧ length (filter (λ o, o = Static) os) = 1 ∨
   m_instance_ptr s = None ∧ length (filter (λ o, o = Static) os) = 0).




End Singleton1Lifetime.

Module Singleton3Calls.
Import Singleton3.

(** A caller that asks [k] times, one call after the other, and catches
    what the accessor throws. *)
Fixpoint calls (T : class_info) (k : nat) (s : shared) : list outcome * shared :=
  match k with
  | 0 => ([], s)
  | S k' =>
      let '(r, s1) := get_instance T s in
      let '(rs, s2) := calls T k' s1 in
      (r :: rs, s2)
  end.

(** A thread whose call is still under way. *)
Definition unfinished (p : pc) : bool :=
  match p with L65 | L65_ctor | L66 => true | Returned _ | Threw => false end.

(** What every interleaving keeps true, whatever the constructor does,
    until [std::terminate] is called. *)
Record guarded (c : config) : Prop := mkGuarded {
  grd_ctor : ∀ i, pcs c !! i = Some L65_ctor →
             instance_guard (sh c) = Initialising i;
  grd_initialising : ∀ i, instance_guard (sh c) = Initialising i →
                     pcs c !! i = Some L65_ctor;
  grd_past : ∀ i p, pcs c !! i = Some p → past_declaration p = true →
             instance_guard (sh c) = Initialised
}.

End Singleton3Calls.

Module GetGlobal.

(** Lines 159-172. The block-scope static [instance] of [get_global<A>]
    (line 170), constructed or not, and the lines written to
    [std::cout]. *)
Record program := mkProgram {
  instance_constructed : bool;
  out : list string
}.

Definition start : program :=
  {| instance_constructed := false; out := [] |}.

(** Lines 161-163 and 164-166. *)
Definition A_constructor (o : list string) : list string :=
  o ++ ["constructor called"].

Definition A_destructor (o : list string) : list string :=
  o ++ ["destructor called"].

Inductive reference := instance.

(** Lines 168-172, for [T = A]: control passes the declaration of line
    170, which constructs [instance] the first time only. *)
Definition get_global (s : program) : reference * program :=
  if instance_constructed s then (instance, s)
  else (instance,
        {| instance_constructed := true; out := A_constructor (out s) |}).

Fixpoint calls (k : nat) (s : program) : list reference * program :=
  match k with
  | 0 => ([], s)
  | S k' =>
      let '(r, s1) := get_global s in
      let '(rs, s2) := calls k' s1 in
      (r :: rs, s2)
  end.

(** The end of the program: a block-scope static that was constructed is
    destroyed, one that was never reached is not. *)
Definition exit_ (s : program) : program :=
  if instance_constructed s
  then {| instance_constructed := false; out := A_destructor (out s) |}
  else s.

(** A program that calls [get_global<A>()] [k] times and ends. *)
Definition whole_run (k : nat) : program := exit_ (snd (calls k start)).

End GetGlobal.

Module Singleton4Lifetime.
Import Singleton4.

(** The end of the program: [m_instance] (line 156) is destroyed by the
    destructor of lines 148-150. *)
Definition static_destruction (s : program) : program :=
  {| m_instance_constructed := false;
     out := out s ++ ["destructor called"] |}.

(** A program that calls [Singleton4::get_instance()] [k] times and
    ends. *)
Definition whole_run (k : nat) : program :=
  static_destruction (snd (calls k at_main)).

End Singleton4Lifetime.

(* ===================================================================== *)
(** * Properties of [Clobal<T>] *)
(* ===================================================================== *)

Module ClobalSpec.
Import Clobal.

Section calls.
Context {T Args : Type}.
Variable ctor : Args → option T.
Implicit Types (s : state T) (l : loc) (v : T).

Lemma Get_eq s : Get s = Ret (ptr s) s.
Proof. reflexivity. Qed.

(** [New] on an empty slot whose constructor completes. *)
Lemma New_empty s args v :
  ptr s = None → ctor args = Some v →
  New ctor args s =
    Ret () {| ptr := Some (fresh (dom (heap s)));
              heap := <[fresh (dom (heap s)):=v]> (heap s);
              trace := trace s ++ [Constructed (fresh (dom (heap s))) v] |}.
Proof.
  intros Hp Hc. unfold New, mbind, M_bind. rewrite Get_eq, Hp. simpl.
  unfold new_. rewrite Hc. reflexivity.
Qed.

(** A throwing constructor leaves the slot empty. *)
Lemma New_throws s args :
  ptr s = None → ctor args = None → New ctor args s = Thrown s.
Proof.
  intros Hp Hc. unfold New, mbind, M_bind. rewrite Get_eq, Hp. simpl.
  unfold new_. rewrite Hc. reflexivity.
Qed.

Lemma New_occupied s args l : ptr s = Some l → New ctor args s = Aborted s.
Proof.
  intros Hp. unfold New, mbind, M_bind. rewrite Get_eq, Hp. reflexivity.
Qed.

Lemma Delete_empty s : ptr s = None → Delete s = Ret () s.
Proof.
  intros Hp. unfold Delete, mbind, M_bind. rewrite Get_eq, Hp. reflexivity.
Qed.

Lemma Delete_live s l v :
  ptr s = Some l → heap s !! l = Some v →
  Delete s =
    Ret () {| ptr := None; heap := delete l (heap s);
              trace := trace s ++ [Destroyed l v; Cout "Delete"] |}.
Proof.
  intros Hp Hh. unfold Delete, mbind, M_bind. rewrite !Get_eq, Hp. simpl.
  unfold delete_. rewrite Hp, Hh. unfold cout. simpl.
  rewrite <- app_assoc. reflexivity.
Qed.

Lemma Delete_dangling s l :
  ptr s = Some l → heap s !! l = None → Delete s = Undefined.
Proof.
  intros Hp Hh. unfold Delete, mbind, M_bind. rewrite !Get_eq, Hp. simpl.
  unfold delete_. rewrite Hp, Hh. reflexivity.
Qed.

(** Whenever [Delete] returns, it leaves the slot empty. *)
Lemma Delete_returns_empty s s' : Delete s = Ret () s' → ptr s' = None.
Proof.
  destruct (ptr s) as [l|] eqn:Hp.
  - destruct (heap s !! l) as [v|] eqn:Hh.
    + rewrite (Delete_live _ _ _ Hp Hh). intros [= <-]. reflexivity.
    + rewrite (Delete_dangling _ _ Hp Hh). discriminate.
  - rewrite (Delete_empty _ Hp). intros [= <-]. exact Hp.
Qed.

(** [New] and [Delete] keep the slot either empty or owning a live
    object. *)
Lemma New_slot_ok s s' args : New ctor args s = Ret () s' → slot_ok s'.
Proof.
  destruct (ptr s) as [l|] eqn:Hp.
  - rewrite (New_occupied _ _ _ Hp). discriminate.
  - destruct (ctor args) as [v|] eqn:Hc.
    + rewrite (New_empty _ _ _ Hp Hc). intros [= <-] l' [= <-]. simpl.
      rewrite lookup_insert_eq. eauto.
    + rewrite (New_throws _ _ Hp Hc). discriminate.
Qed.

Lemma Delete_slot_ok s s' : Delete s = Ret () s' → slot_ok s'.
Proof.
  intros H l Hl. rewrite (Delete_returns_empty _ _ H) in Hl. discriminate.
Qed.

Lemma Delete_defined s : slot_ok s → ∃ s', Delete s = Ret () s'.
Proof.
  intros Hok. destruct (ptr s) as [l|] eqn:Hp.
  - destruct (Hok l Hp) as [v Hv]. rewrite (Delete_live _ _ _ Hp Hv). eauto.
  - rewrite (Delete_empty _ Hp). eauto.
Qed.

End calls.

Lemma destructor_calls_app {T} (tr1 tr2 : list (event T)) :
  destructor_calls (tr1 ++ tr2) = destructor_calls tr1 + destructor_calls tr2.
Proof. unfold destructor_calls. rewrite filter_app, length_app. reflexivity. Qed.

(** C1. With the slot of [Clobal<Foo>] empty (whatever else lives on the
    heap and whatever happened before): [New(1,2)] returns and [Get()]
    then yields a pointer to a live [Foo] built from (1,2), by one
    constructor call; [Delete()] returns, destroys it by one destructor
    call and [Get()] then yields null; a second [Delete()] returns with
    the state, and so the count of destructor calls, unchanged. *)
Theorem C1_scenario (h : gmap loc Foo) (tr : list (event Foo)) :
  ∃ l s1 s2,
    New Foo_ctor (1, 2)%Z {| ptr := None; heap := h; trace := tr |} = Ret () s1 ∧
    Get s1 = Ret (Some l) s1 ∧
    heap s1 !! l = Some (mkFoo 1 2) ∧
    trace s1 = tr ++ [Constructed l (mkFoo 1 2)] ∧
    constructor_calls (trace s1) = S (constructor_calls tr) ∧
    Delete s1 = Ret () s2 ∧
    Get s2 = Ret None s2 ∧
    heap s2 !! l = None ∧
    destructor_calls (trace s2) = S (destructor_calls tr) ∧
    Delete s2 = Ret () s2.
Proof.
  set (s0 := {| ptr := None; heap := h; trace := tr |}).
  set (l := fresh (dom h)).
  exists l. eexists. eexists.
  split. { exact (New_empty Foo_ctor s0 (1, 2)%Z (mkFoo 1 2) eq_refl eq_refl). }
  split. { reflexivity. }
  split. { simpl. apply lookup_insert_eq. }
  split. { reflexivity. }
  split. { simpl. unfold constructor_calls. rewrite filter_app, length_app. simpl. lia. }
  split. { eapply Delete_live; simpl; [reflexivity | apply lookup_insert_eq]. }
  split. { reflexivity. }
  split. { simpl. apply lookup_delete_eq. }
  split. { simpl. rewrite !destructor_calls_app. simpl. unfold destructor_calls at 2 3.
           simpl. lia. }
  apply Delete_empty. reflexivity.
Qed.

(** C2. For every type, constructor and argument pack: [New] on an
    occupied slot ends in the abort of the failed assertion, with the
    state as it was: the live instance is still in the slot and no
    constructor ran. *)
Theorem C2_New_on_occupied_slot_aborts {T Args : Type} (ctor : Args → option T)
    (args : Args) (s : state T) (l : loc) :
  ptr s = Some l → New ctor args s = Aborted s.
Proof. apply New_occupied. Qed.

Lemma C2_witness : New Foo_ctor (3, 4)%Z scenario_state = Aborted scenario_state.
Proof. apply (C2_New_on_occupied_slot_aborts Foo_ctor (3, 4)%Z scenario_state 1%positive). reflexivity. Defined.

(** C3. For every type and every state of the registry: two calls of
    [Delete] in a row end as one call does; on an empty slot [Delete]
    returns and changes nothing; on a slot that owns a live object it
    runs the destructor once, empties the slot and writes its line; and
    after a [Delete] that returned, another one returns with the state
    unchanged, so no destructor runs. *)
Theorem C3_Delete_idempotent {T : Type} (s : state T) :
  (Delete ≫= λ _, Delete) s = Delete s ∧
  (ptr s = None → Delete s = Ret () s) ∧
  (∀ l v, ptr s = Some l → heap s !! l = Some v →
     Delete s = Ret () {| ptr := None; heap := delete l (heap s);
                          trace := trace s ++ [Destroyed l v; Cout "Delete"] |}) ∧
  (∀ s', Delete s = Ret () s' → Delete s' = Ret () s').
Proof.
  assert (Hsecond : ∀ s', Delete s = Ret () s' → Delete s' = Ret () s').
  { intros s' H. apply Delete_empty. eapply Delete_returns_empty, H. }
  split; [| split; [apply Delete_empty | split; [apply Delete_live | exact Hsecond]]].
  unfold mbind at 1, M_bind at 1.
  destruct (Delete s) as [[] s'| | |] eqn:H; try reflexivity.
  apply Hsecond. reflexivity.
Qed.

Lemma C3_witness :
  Delete scenario_state =
    Ret () {| ptr := None; heap := delete 1%positive (heap scenario_state);
              trace := trace scenario_state ++
                       [Destroyed 1%positive (mkFoo 1 2); Cout "Delete"] |}.
Proof.
  apply (proj1 (proj2 (proj2 (C3_Delete_idempotent scenario_state)))); reflexivity.
Defined.

(** C4. For every type and every state of the registry: [Get] returns
    what the slot holds, a pointer to the instance or null, and leaves the
    slot, the heap and the trace as they were: it constructs nothing. *)
Theorem C4_Get_returns_slot_unchanged {T : Type} (s : state T) :
  Get s = Ret (ptr s) s ∧ GetPPtr s = Ret addr_of_ptr s.
Proof. split; reflexivity. Qed.

End ClobalSpec.

(* ===================================================================== *)
(** * Properties of [Singleton1] *)
(* ===================================================================== *)

Module Singleton1Spec.
Import Singleton1.

Implicit Types (s : shared) (c : config) (p : pc) (l : loc).

(** ** One thread *)

Lemma constructor_calls_construct s :
  constructor_calls (construct_and_assign s) = S (constructor_calls s).
Proof.
  unfold constructor_calls, construct_and_assign. simpl.
  rewrite filter_app, length_app. simpl. lia.
Qed.


(** The first call: the pointer is empty and the mutex is free. *)
Lemma get_instance_first i s :
  m_instance_ptr s = None → m_mutex s = None →
  get_instance i s =
    Some (Some (fresh (heap s)),
          {| m_instance_ptr := Some (fresh (heap s)); m_mutex := None;
             heap := {[fresh (heap s)]} ∪ heap s;
             use_count := alter S (fresh (heap s)) (<[fresh (heap s):=1]> (use_count s));
             out := out s ++ ["constructor called"] |}).
Proof.
  intros Hp Hm. unfold get_instance, lock. rewrite Hp, Hm. simpl.
  rewrite ?Hp. reflexivity.
Qed.

(** Every later call: the fast path. *)
Lemma get_instance_later i s l :
  m_instance_ptr s = Some l →
  get_instance i s =
    Some (Some l,
          {| m_instance_ptr := Some l; m_mutex := m_mutex s; heap := heap s;
             use_count := alter S l (use_count s); out := out s |}).
Proof.
  intros Hp. unfold get_instance, copy_instance_ptr. rewrite Hp. simpl.
  rewrite ?Hp. reflexivity.
Qed.

Lemma calls_later k i s l n :
  m_instance_ptr s = Some l → use_count s !! l = Some n →
  ∃ s', calls k i s = Some (replicate k (Some l), s') ∧
        m_instance_ptr s' = Some l ∧ m_mutex s' = m_mutex s ∧
        heap s' = heap s ∧ out s' = out s ∧
        use_count s' !! l = Some (k + n).
Proof.
  revert s n. induction k as [|k IH]; intros s n Hp Hn.
  - exists s. simpl. eauto 10.
  - simpl. rewrite (get_instance_later i s l Hp). simpl.
    set (s1 := {| m_instance_ptr := Some l; m_mutex := m_mutex s; heap := heap s;
                  use_count := alter S l (use_count s); out := out s |}).
    destruct (IH s1 (S n)) as (s' & Hc & H1 & H2 & H3 & H4 & H5).
    { reflexivity. }
    { simpl. rewrite lookup_alter_eq, Hn. reflexivity. }
    exists s'. rewrite Hc. simpl.
    repeat split; try assumption. rewrite H5. f_equal. lia.
Qed.

(** The thread machine run alone agrees with the function. *)
Lemma run_alone_get_instance i s :
  m_mutex s = None →
  ∃ h s', get_instance i s = Some (h, s') ∧ run_alone 6 i L19 s = (Returned h, s').
Proof.
  intros Hm. destruct (m_instance_ptr s) as [l|] eqn:Hp.
  - rewrite (get_instance_later i s l Hp). eexists _, _. split; [reflexivity|].
    simpl. rewrite Hp. simpl. unfold copy_instance_ptr. rewrite ?Hp. reflexivity.
  - rewrite (get_instance_first i s Hp Hm). eexists _, _. split; [reflexivity|].
    simpl. rewrite Hp. simpl. unfold lock. rewrite Hm. simpl. rewrite ?Hp. simpl.
    reflexivity.
Qed.


(** ** Several threads *)

Lemma config_step_inv i c c' :
  config_step i c = Some c' →
  ∃ p p' s', pcs c !! i = Some p ∧ thread_step i p (sh c) = Some (p', s') ∧
             c' = {| pcs := <[i:=p']> (pcs c); sh := s' |}.
Proof.
  unfold config_step. intros H.
  destruct (pcs c !! i) as [p|] eqn:Hi; [|discriminate]. simpl in H.
  destruct (thread_step i p (sh c)) as [[p' s']|] eqn:Hs; [|discriminate].
  simpl in H. injection H as <-. eauto 10.
Qed.

Lemma invariant_start n : invariant (start n).
Proof.
  split; unfold start; simpl.
  - intros i p [-> _]%lookup_replicate. discriminate.
  - discriminate.
  - intros i [? _]%lookup_replicate. discriminate.
  - intros i p [-> _]%lookup_replicate. discriminate.
  - intros i h [? _]%lookup_replicate. discriminate.
  - intros _. split; reflexivity.
  - discriminate.
Qed.

Ltac other_thread H :=
  apply list_lookup_insert_Some in H;
  destruct H as [(<- & ? & ?) | (? & H)]; simplify_eq/=;
  try case_bool_decide; try done; eauto.

(** The mutex stays with a thread that moves inside the critical section,
    and with its owner when another thread moves. *)
Lemma held_after_step (l : list pc) (i j : nat) (p p' : pc) :
  l !! i = Some p →
  (in_critical_section p = true → in_critical_section p' = true) →
  (∃ q, l !! j = Some q ∧ in_critical_section q = true) →
  ∃ q, <[i:=p']> l !! j = Some q ∧ in_critical_section q = true.
Proof.
  intros Hi Hcs (q & Hq & Hq'). destruct (decide (i = j)) as [<-|Hne].
  - exists p'. split; [apply list_lookup_insert_eq; eapply lookup_lt_Some, Hi|].
    apply Hcs. congruence.
  - exists q. rewrite list_lookup_insert_ne; done.
Qed.

Lemma invariant_step i c c' :
  invariant c → config_step i c = Some c' → invariant c'.
Proof.
  intros [Hown Hheld H22 Haft Hret Hemp Hpub] Hstep.
  apply config_step_inv in Hstep as (p & p' & s' & Hi & Hs & ->).
  destruct p; simpl in Hs; simplify_eq/=.
  - (* line 19 *)
    split; simpl;
      [intros j q Hj Hq | intros j Hj | intros j Hj | intros j q Hj Hq
       | intros j h Hj | done | done]; try (other_thread Hj; fail).
    eapply held_after_step; eauto; done.
  - (* line 20 *)
    unfold lock in Hs. destruct (m_mutex (sh c)) as [o|] eqn:Hm; simplify_eq/=.
    split; simpl;
      [intros j q Hj Hq | intros j Hj | intros j Hj | intros j q Hj Hq
       | intros j h Hj | done | done]; try (other_thread Hj; fail).
    + other_thread Hj. specialize (Hown _ _ Hj Hq). congruence.
    + injection Hj as <-. exists L21. split; [|done].
      apply list_lookup_insert_eq. eapply lookup_lt_Some, Hi.
  - (* line 21 *)
    pose proof (Hown _ _ Hi eq_refl) as Hm.
    split; simpl;
      [intros j q Hj Hq | intros j Hj | intros j Hj | intros j q Hj Hq
       | intros j h Hj | done | done]; try (other_thread Hj; fail).
    eapply held_after_step; eauto; intros _; case_bool_decide; done.
  - (* line 22 *)
    pose proof (Hown _ _ Hi eq_refl) as Hm.
    pose proof (H22 _ Hi) as Hp. destruct (Hemp Hp) as [Hcc Hheap].
    split; simpl;
      [intros j q Hj Hq | intros j Hj | intros j Hj | intros j q Hj Hq
       | intros j h Hj | done | intros l [= <-] ]; try (other_thread Hj; fail).
    + eapply held_after_step; eauto; done.
    + other_thread Hj. specialize (Hown _ _ Hj eq_refl). congruence.
    + other_thread Hj. specialize (Haft _ _ Hj eq_refl). congruence.
    + split.
      * rewrite constructor_calls_construct, Hcc. reflexivity.
      * rewrite Hheap. set_solver.
  - (* line 24 *)
    pose proof (Hown _ _ Hi eq_refl) as Hm.
    split; simpl;
      [intros j q Hj Hq | intros j Hj | intros j Hj | intros j q Hj Hq
       | intros j h Hj | done | done]; try (other_thread Hj; fail).
    + other_thread Hj. specialize (Hown _ _ Hj Hq). congruence.
    + done.
  - (* line 25 *)
    pose proof (Haft _ _ Hi eq_refl) as Hp.
    destruct (m_instance_ptr (sh c)) as [l|] eqn:Hl; [|done].
    split; simpl;
      [intros j q Hj Hq | intros j Hj | intros j Hj | intros j q Hj Hq
       | intros j h Hj | done | intros l' [= <-]; exact (Hpub _ eq_refl) ];
      try (other_thread Hj; fail).
    eapply held_after_step; eauto; done.
Qed.

Lemma invariant_reachable n c : rtc sc_step (start n) c → invariant c.
Proof.
  revert c. apply rtc_ind_r.
  - apply invariant_start.
  - intros c c' _ Hstep IH. destruct Hstep as [i c c' Hstep].
    eapply invariant_step; eauto.
Qed.

Lemma invariant_single_instance c : invariant c → single_instance c.
Proof.
  intros [Hown Hheld H22 Haft Hret Hemp Hpub]. split.
  - destruct (m_instance_ptr (sh c)) as [l|] eqn:Hl.
    + destruct (Hpub l eq_refl) as [-> _]. done.
    + destruct (Hemp eq_refl) as [-> _]. lia.
  - intros i h Hr. unfold returned in Hr.
    destruct (pcs c !! i) as [[| | | | | |h']|] eqn:Hi; simplify_eq/=.
    pose proof (Hret _ _ Hi) as ->. pose proof (Haft _ _ Hi eq_refl) as Hne.
    destruct (m_instance_ptr (sh c)) as [l|] eqn:Hl; [|done].
    destruct (Hpub l eq_refl) as [Hcc Hh]. eauto 10.
Qed.

(** Two calls that returned hold the same handle. *)
Lemma single_instance_same_handle c i j h1 h2 :
  single_instance c → returned c i = Some h1 → returned c j = Some h2 → h1 = h2.
Proof.
  intros [_ H] H1 H2.
  destruct (H _ _ H1) as (_ & l1 & -> & Hl1 & _).
  destruct (H _ _ H2) as (_ & l2 & -> & Hl2 & _). congruence.
Qed.

(** Mutual exclusion: lines 21 to 24 hold one thread at a time. *)
Lemma invariant_mutual_exclusion c i j p q :
  invariant c → pcs c !! i = Some p → pcs c !! j = Some q →
  in_critical_section p = true → in_critical_section q = true → i = j.
Proof.
  intros Hinv Hi Hj Hp Hq.
  pose proof (inv_owner c Hinv _ _ Hi Hp). pose proof (inv_owner c Hinv _ _ Hj Hq).
  congruence.
Qed.

(** A list of threads has all returned, or holds one that has not. *)
Lemma returned_or_not (l : list pc) :
  (∀ i p, l !! i = Some p → ∃ h, p = Returned h) ∨
  (∃ i p, l !! i = Some p ∧ weight p ≠ 0).
Proof.
  induction l as [|p l [IH|(i & q & Hi & Hq)]].
  - left. intros i p. rewrite lookup_nil. done.
  - destruct p as [| | | | | |h]; try (right; exists 0; eexists; split; [reflexivity|done]).
    left. intros [|i] q Hq; simplify_eq/=; eauto.
  - right. exists (S i), q. done.
Qed.

(** No deadlock: while a call is still running, some thread can step. *)
Lemma invariant_progress c :
  invariant c → all_returned c ∨ ∃ c', sc_step c c'.
Proof.
  intros Hinv. destruct (returned_or_not (pcs c)) as [Hall|(i & p & Hi & Hp)].
  { left. exact Hall. }
  right.
  assert (Hgo : ∀ j q ps, pcs c !! j = Some q → thread_step j q (sh c) = Some ps →
                           ∃ c', sc_step c c').
  { intros j q [q' s'] Hj Hs. eexists. apply (sc_step_thread j).
    unfold config_step. rewrite Hj. simpl. rewrite Hs. reflexivity. }
  destruct p; try (eapply Hgo; [exact Hi | reflexivity]); [|done].
  destruct (m_mutex (sh c)) as [j|] eqn:Hm.
  - destruct (inv_held c Hinv j Hm) as (q & Hj & Hq).
    destruct q; try discriminate; eapply Hgo; try exact Hj; reflexivity.
  - eapply Hgo; [exact Hi|]. simpl. unfold lock. rewrite Hm. reflexivity.
Qed.

Lemma sum_list_with_insert (l : list pc) i p p' :
  l !! i = Some p →
  sum_list_with weight (<[i:=p']> l) + weight p = sum_list_with weight l + weight p'.
Proof.
  revert i. induction l as [|q l IH]; intros [|i] Hi; simplify_eq/=; [lia|].
  specialize (IH _ Hi). lia.
Qed.

Lemma thread_step_weight i p s p' s' :
  thread_step i p s = Some (p', s') → weight p' < weight p.
Proof.
  destruct p; simpl; intros H; simplify_eq/=; try lia.
  - case_bool_decide; simpl; lia.
  - unfold lock in H. destruct (m_mutex s); simplify_eq/=. lia.
  - case_bool_decide; simpl; lia.
Qed.

(** Every step uses up one of the at most six steps of its thread. *)
Lemma sc_step_remaining c c' : sc_step c c' → remaining c' < remaining c.
Proof.
  intros [i c1 c2 Hstep].
  apply config_step_inv in Hstep as (p & p' & s' & Hi & Hs & ->).
  unfold remaining. simpl.
  pose proof (sum_list_with_insert _ _ _ p' Hi).
  pose proof (thread_step_weight _ _ _ _ _ Hs). lia.
Qed.

Lemma remaining_start n : remaining (start n) = 6 * n.
Proof.
  unfold remaining, start. simpl. induction n as [|n IH]; simpl; lia.
Qed.

Lemma nsteps_remaining m c c' : nsteps sc_step m c c' → m + remaining c' ≤ remaining c.
Proof.
  induction 1 as [|m c1 c2 c3 Hstep _ IH]; [lia|].
  apply sc_step_remaining in Hstep. lia.
Qed.

(** ** The race *)

Lemma racing_reached : run_schedule [0; 0; 0] (start 2) = Some racing.
Proof. reflexivity. Qed.

Lemma racing_races : races_at 1 0 racing = true ∧ race racing = true.
Proof. split; reflexivity. Qed.

Lemma run_schedule_rtc sched c c' :
  run_schedule sched c = Some c' → rtc step (Running c) (Running c').
Proof.
  revert c. induction sched as [|i sched IH]; intros c H; simplify_eq/=.
  - apply rtc_refl.
  - destruct (config_step i c) as [c1|] eqn:Hs; simplify_eq/=.
    eapply rtc_l; [apply (step_thread i), Hs | apply IH, H].
Qed.

Lemma run_schedule_sc sched c c' :
  run_schedule sched c = Some c' → rtc sc_step c c'.
Proof.
  revert c. induction sched as [|i sched IH]; intros c H; simplify_eq/=.
  - apply rtc_refl.
  - destruct (config_step i c) as [c1|] eqn:Hs; simplify_eq/=.
    eapply rtc_l; [apply (sc_step_thread i), Hs | apply IH, H].
Qed.

Lemma undefined_behaviour_reachable :
  rtc step (Running (start 2)) UndefinedBehaviour.
Proof.
  eapply rtc_r; [apply (run_schedule_rtc _ _ _ racing_reached)|].
  apply step_race. reflexivity.
Qed.

(** What [races_at] reports in an interleaving is always the unlocked
    first read of line 19 against the locked write of line 22; the test
    does not see the races of accesses that lie apart. *)
Lemma invariant_races c i j :
  invariant c → races_at i j c = true →
  (pcs c !! i = Some L19 ∧ pcs c !! j = Some L22) ∨
  (pcs c !! i = Some L22 ∧ pcs c !! j = Some L19).
Proof.
  intros Hinv. unfold races_at. intros [Hne H]%andb_prop.
  apply bool_decide_eq_true in Hne.
  destruct (pcs c !! i) as [p|] eqn:Hi; [|done].
  destruct (pcs c !! j) as [q|] eqn:Hj; [|done].
  destruct p, q; simplify_eq/=; eauto;
    try (exfalso; apply Hne; eapply invariant_mutual_exclusion; eauto; fail).
  - pose proof (inv_L22 c Hinv _ Hi). by pose proof (inv_after c Hinv _ _ Hj eq_refl).
  - pose proof (inv_L22 c Hinv _ Hj). by pose proof (inv_after c Hinv _ _ Hi eq_refl).
Qed.

Lemma sc_step_length c c' : sc_step c c' → length (pcs c') = length (pcs c).
Proof.
  intros [i c1 c2 Hstep].
  apply config_step_inv in Hstep as (p & p' & s' & Hi & Hs & ->).
  simpl. apply length_insert.
Qed.

Lemma rtc_length n c : rtc sc_step (start n) c → length (pcs c) = n.
Proof.
  revert c. apply rtc_ind_r.
  - apply length_replicate.
  - intros c c' _ Hstep IH. rewrite (sc_step_length _ _ Hstep). exact IH.
Qed.

Lemma run_schedule_nsteps sched c c' :
  run_schedule sched c = Some c' → nsteps sc_step (length sched) c c'.
Proof.
  revert c. induction sched as [|i sched IH]; intros c H; simplify_eq/=.
  - apply nsteps_O.
  - destruct (config_step i c) as [c1|] eqn:Hs; simplify_eq/=.
    eapply nsteps_l; [apply (sc_step_thread i), Hs | apply IH, H].
Qed.

(** All interleavings of [n] calls: they end after at most [6 * n] steps,
    keep the single-instance property, never deadlock, and once all calls
    returned the constructor ran exactly once. *)
Lemma interleavings_single_instance n m c :
  nsteps sc_step m (start n) c →
  m ≤ 6 * n ∧ single_instance c ∧
  (all_returned c ∨ ∃ c', sc_step c c') ∧
  (all_returned c → 0 < n → constructor_calls (sh c) = 1).
Proof.
  intros H. pose proof (nsteps_remaining _ _ _ H) as Hm.
  rewrite remaining_start in Hm.
  apply rtc_nsteps_2 in H. pose proof (invariant_reachable _ _ H) as Hinv.
  pose proof (invariant_single_instance _ Hinv) as Hsi.
  split; [lia|]. split; [exact Hsi|]. split; [by apply invariant_progress|].
  intros Hall Hn. pose proof (rtc_length _ _ H) as Hlen.
  destruct (lookup_lt_is_Some_2 (pcs c) 0) as [p Hp]; [lia|].
  destruct (Hall _ _ Hp) as [h ->].
  destruct Hsi as [_ Hsi]. apply (Hsi 0 h). unfold returned. rewrite Hp. done.
Qed.

(** With two threads or more, thread 0 can stand before the write of line
    22 while thread 1 has not yet made its first read: a data race. *)
Lemma race_reachable_among n :
  2 ≤ n → rtc step (Running (start n)) UndefinedBehaviour.
Proof.
  intros Hn. destruct n as [|[|m]]; [lia|lia|].
  set (c := {| pcs := L22 :: L19 :: replicate m L19;
               sh := {| m_instance_ptr := None; m_mutex := Some 0; heap := ∅;
                        use_count := ∅; out := [] |} |}).
  assert (Hrun : run_schedule [0; 0; 0] (start (S (S m))) = Some c) by reflexivity.
  eapply rtc_r; [apply (run_schedule_rtc _ _ _ Hrun)|].
  apply step_race. reflexivity.
Qed.

(** The reads of lines 19 and 25 are made by threads that do not hold the
    mutex. *)
Lemma invariant_unlocked_reads c i p :
  invariant c → pcs c !! i = Some p → in_critical_section p = false →
  m_mutex (sh c) ≠ Some i.
Proof.
  intros Hinv Hi Hp Hm.
  destruct (inv_held c Hinv i Hm) as (q & Hq & Hcs). congruence.
Qed.

End Singleton1Spec.

(* ===================================================================== *)
(** * Properties of the function-local static *)
(* ===================================================================== *)

Module Singleton3Spec.
Import Singleton3.

Implicit Types (T : class_info) (s : shared) (c : config) (p : pc).

(** ** One thread *)

(** Once initialised, the accessor returns the instance and touches
    nothing. *)
Lemma get_instance_initialised T s :
  terminated s = false → instance_guard s = Initialised →
  get_instance T s = (Returns instance, s).
Proof. intros Ht Hg. unfold get_instance. rewrite Ht, Hg. reflexivity. Qed.

(** The first call with a constructor run that completes. *)
Lemma get_instance_constructs T s :
  terminated s = false → instance_guard s = Uninitialised →
  ctor_throws T (ctor_runs s) = false →
  get_instance T s =
    (Returns instance,
     {| instance_guard := Initialised; ctor_runs := S (ctor_runs s);
        terminated := false |}).
Proof. intros Ht Hg Hc. unfold get_instance. rewrite Ht, Hg, Hc. reflexivity. Qed.

(** With [noexcept(false)], an exception of the constructor leaves the
    accessor and the variable stays uninitialised. *)
Lemma get_instance_propagates T s :
  is_nothrow_constructible T = false →
  terminated s = false → instance_guard s = Uninitialised →
  ctor_throws T (ctor_runs s) = true →
  get_instance T s =
    (Throws,
     {| instance_guard := Uninitialised; ctor_runs := S (ctor_runs s);
        terminated := false |}).
Proof.
  intros Hn Ht Hg Hc. unfold get_instance. rewrite Ht, Hg, Hc, Hn. reflexivity.
Qed.

(** With [noexcept(true)], the same exception ends the program. *)
Lemma get_instance_terminates T s :
  is_nothrow_constructible T = true →
  terminated s = false → instance_guard s = Uninitialised →
  ctor_throws T (ctor_runs s) = true →
  get_instance T s =
    (Terminates,
     {| instance_guard := Uninitialised; ctor_runs := S (ctor_runs s);
        terminated := true |}).
Proof.
  intros Hn Ht Hg Hc. unfold get_instance. rewrite Ht, Hg, Hc, Hn. reflexivity.
Qed.

(** For classes after the pattern of [DerivedSingle], which have no
    default constructor: the accessor throws exactly when the constructor
    run does, leaves no instance behind, and the next call runs the
    constructor again. *)
Lemma get_instance_retries T s :
  is_nothrow_constructible T = false →
  terminated s = false → instance_guard s = Uninitialised →
  (fst (get_instance T s) = Throws ↔ ctor_throws T (ctor_runs s) = true) ∧
  (ctor_throws T (ctor_runs s) = true →
     let s1 := snd (get_instance T s) in
     instance_guard s1 = Uninitialised ∧ terminated s1 = false ∧
     ctor_runs s1 = S (ctor_runs s) ∧
     (ctor_throws T (S (ctor_runs s)) = false →
        fst (get_instance T s1) = Returns instance ∧
        instance_guard (snd (get_instance T s1)) = Initialised ∧
        ctor_runs (snd (get_instance T s1)) = S (S (ctor_runs s)))).
Proof.
  intros Hn Ht Hg. split.
  - unfold get_instance. rewrite Ht, Hg, Hn.
    destruct (ctor_throws T (ctor_runs s)); simpl; split; congruence.
  - intros Hc. rewrite (get_instance_propagates T s Hn Ht Hg Hc). simpl.
    repeat split; try reflexivity.
    all: rewrite get_instance_constructs; try reflexivity; assumption.
Qed.

(** The thread machine run alone agrees with the function. *)
Lemma static_run_alone_get_instance T i s :
  (∀ j, instance_guard s ≠ Initialising j) →
  let '(p, s') := run_alone T 3 i L65 s in
  get_instance T s = (outcome_of p s', s').
Proof.
  intros Hg. unfold get_instance.
  destruct s as [g k t]. simpl in Hg. destruct t; [reflexivity|].
  destruct g as [|j|].
  - cbn. destruct (ctor_throws T k), (is_nothrow_constructible T); reflexivity.
  - by destruct (Hg j).
  - reflexivity.
Qed.

(** [main]: both calls return the one instance; the constructor ran
    once. *)
Lemma main_DerivedSingle :
  main DerivedSingle initial =
    ((Returns instance, Returns instance),
     {| instance_guard := Initialised; ctor_runs := 1; terminated := false |}).
Proof. reflexivity. Qed.

Lemma FailsOnce_retried :
  fst (get_instance FailsOnce initial) = Throws ∧
  get_instance FailsOnce (snd (get_instance FailsOnce initial)) =
    (Returns instance,
     {| instance_guard := Initialised; ctor_runs := 2; terminated := false |}).
Proof. split; reflexivity. Qed.

(** C8. A class with a default constructor declared [noexcept] and a
    token constructor that throws: the exception specification of line 64
    evaluates to [noexcept(true)], so the exception of the constructor is
    not handed to the caller: the first call ends the program, and there
    is no later call that could try again. *)
Theorem C8_noexcept_from_default_constructor :
  is_nothrow_constructible DefaultNoexcept = true ∧
  ctor_throws DefaultNoexcept 0 = true ∧
  fst (get_instance DefaultNoexcept initial) = Terminates ∧
  fst (get_instance DefaultNoexcept initial) ≠ Throws ∧
  terminated (snd (get_instance DefaultNoexcept initial)) = true ∧
  fst (get_instance DefaultNoexcept (snd (get_instance DefaultNoexcept initial)))
    = Terminates.
Proof. repeat split; done. Qed.

(** ** Several threads *)

Section threads.
Variable T : class_info.
Hypothesis T_never_throws : never_throws T.

Lemma static_config_step_inv i c c' :
  config_step T i c = Some c' →
  ∃ p p' s', pcs c !! i = Some p ∧ thread_step T i p (sh c) = Some (p', s') ∧
             c' = {| pcs := <[i:=p']> (pcs c); sh := s' |}.
Proof.
  unfold config_step. intros H.
  destruct (pcs c !! i) as [p|] eqn:Hi; [|discriminate]. simpl in H.
  destruct (thread_step T i p (sh c)) as [[p' s']|] eqn:Hs; [|discriminate].
  simpl in H. injection H as <-. eauto 10.
Qed.

Lemma static_invariant_start n : invariant (start n).
Proof.
  split; unfold start; simpl; try done.
  - intros i [? _]%lookup_replicate. discriminate.
  - intros i p [-> _]%lookup_replicate. discriminate.
  - intros i [? _]%lookup_replicate. discriminate.
Qed.

Ltac other_thread H :=
  apply list_lookup_insert_Some in H;
  destruct H as [(<- & ? & ?) | (? & H)]; simplify_eq/=;
  try done; eauto.

Lemma static_invariant_step i c c' :
  invariant c → config_step T i c = Some c' → invariant c'.
Proof.
  intros [Hrun Hctor Hini Hpast Hthrow Hruns] Hstep.
  apply static_config_step_inv in Hstep as (p & p' & s' & Hi & Hs & ->).
  unfold thread_step in Hs. rewrite Hrun in Hs.
  assert (Hlen : i < length (pcs c)) by (eapply lookup_lt_Some, Hi).
  assert (Hother : ∀ j q, <[i:=p']> (pcs c) !! j = Some q → q ≠ p' → pcs c !! j = Some q).
  { intros j q Hj Hq. other_thread Hj. }
  assert (Hthrow' : p' ≠ Threw → ∀ j, <[i:=p']> (pcs c) !! j ≠ Some Threw).
  { intros Hp' j Hj. other_thread Hj. by eapply Hthrow. }
  destruct p; simplify_eq/=.
  - (* line 65, the declaration *)
    destruct (instance_guard (sh c)) as [|o|] eqn:Hg; simplify_eq/=.
    + split; simpl; [done | | | | by apply Hthrow' | (rewrite ?Hruns, ?Hg; done)].
      * intros j Hj. other_thread Hj. specialize (Hctor _ Hj). congruence.
      * intros j [= <-]. by apply list_lookup_insert_eq.
      * intros j q Hj Hq. destruct q; try done;
          apply Hother in Hj; try done; specialize (Hpast _ _ Hj eq_refl); congruence.
    + split; simpl; rewrite ?Hg;
      [done | | done | done | by apply Hthrow' | (rewrite ?Hruns, ?Hg; done)].
      intros j Hj. apply Hother in Hj; [|done]. specialize (Hctor _ Hj). congruence.
  - (* line 65, the constructor *)
    rewrite T_never_throws in Hs. simplify_eq/=.
    pose proof (Hctor _ Hi) as Hg.
    split; simpl; [done | | done | done | by apply Hthrow' | (rewrite ?Hruns, ?Hg; done)].
    intros j Hj. other_thread Hj. specialize (Hctor _ Hj). congruence.
  - (* line 66 *)
    pose proof (Hpast _ _ Hi eq_refl) as Hg.
    split; simpl; rewrite ?Hg;
      [done | | done | done | by apply Hthrow' | (rewrite ?Hruns, ?Hg; done)].
    intros j Hj. apply Hother in Hj; [|done]. specialize (Hctor _ Hj). congruence.
Qed.

Lemma static_invariant_reachable n c : rtc (step T) (start n) c → invariant c.
Proof.
  revert c. apply rtc_ind_r.
  - apply static_invariant_start.
  - intros c c' _ Hstep IH. destruct Hstep as [i c c' Hstep].
    eapply static_invariant_step; eauto.
Qed.

Lemma static_invariant_single_instance c : invariant c → single_instance c.
Proof.
  intros [Hrun Hctor Hini Hpast Hthrow Hruns]. split.
  - rewrite Hruns. destruct (instance_guard (sh c)); lia.
  - intros i r Hi. pose proof (Hpast _ _ Hi eq_refl) as Hg.
    rewrite Hruns, Hg. done.
Qed.

Lemma static_returned_or_not (l : list pc) :
  (∀ i p, l !! i = Some p → ∃ r, p = Returned r) ∨
  (∃ i p, l !! i = Some p ∧ ∀ r, p ≠ Returned r).
Proof.
  induction l as [|p l [IH|(i & q & Hi & Hq)]].
  - left. intros i p. rewrite lookup_nil. done.
  - destruct p as [| | |r|]; try (right; exists 0; eexists; split; [reflexivity|done]).
    left. intros [|i] q Hq; simplify_eq/=; eauto.
  - right. exists (S i), q. done.
Qed.

(** No deadlock and no lost call: while a call has not returned, some
    thread can step. *)
Lemma static_invariant_progress c :
  invariant c → all_returned c ∨ ∃ c', step T c c'.
Proof.
  intros Hinv. destruct (static_returned_or_not (pcs c)) as [Hall|(i & p & Hi & Hp)].
  { left. exact Hall. }
  right.
  assert (Hgo : ∀ j q ps, pcs c !! j = Some q → thread_step T j q (sh c) = Some ps →
                           ∃ c', step T c c').
  { intros j q [q' s'] Hj Hs. eexists. apply (step_thread T j).
    unfold config_step. rewrite Hj. simpl. rewrite Hs. reflexivity. }
  assert (Hc : ∀ j, pcs c !! j = Some L65_ctor → ∃ c', step T c c').
  { intros j Hj. eapply Hgo; [exact Hj|]. unfold thread_step.
    rewrite (inv_running c Hinv), T_never_throws. reflexivity. }
  destruct p as [| | |r|].
  - destruct (instance_guard (sh c)) as [|j|] eqn:Hg.
    + eapply Hgo; [exact Hi|]. unfold thread_step.
      rewrite (inv_running c Hinv), Hg. reflexivity.
    + apply (Hc j). by apply (inv_initialising c Hinv).
    + eapply Hgo; [exact Hi|]. unfold thread_step.
      rewrite (inv_running c Hinv), Hg. reflexivity.
  - by apply (Hc i).
  - eapply Hgo; [exact Hi|]. unfold thread_step.
    rewrite (inv_running c Hinv). reflexivity.
  - by destruct (Hp r).
  - by destruct (inv_no_throw c Hinv i).
Qed.

End threads.

Lemma static_sum_list_with_insert (l : list pc) i p p' :
  l !! i = Some p →
  sum_list_with weight (<[i:=p']> l) + weight p = sum_list_with weight l + weight p'.
Proof.
  revert i. induction l as [|q l IH]; intros [|i] Hi; simplify_eq/=; [lia|].
  specialize (IH _ Hi). lia.
Qed.

(** Also with a constructor that throws, every step but the one that
    ends the program uses up a step of its thread. *)
Lemma static_thread_step_weight T i p s p' s' :
  thread_step T i p s = Some (p', s') → terminated s' = false → weight p' < weight p.
Proof.
  unfold thread_step. destruct (terminated s); [done|].
  destruct p; simpl; intros H Ht; simplify_eq/=; try lia.
  - destruct (instance_guard s); simplify_eq/=; lia.
  - destruct (ctor_throws T (ctor_runs s)), (is_nothrow_constructible T);
      simplify_eq/=; lia.
Qed.

Lemma step_remaining T c c' :
  step T c c' → terminated (sh c') = false → remaining c' < remaining c.
Proof.
  intros [i c1 c2 Hstep] Ht.
  apply static_config_step_inv in Hstep as (p & p' & s' & Hi & Hs & ->).
  unfold remaining. simpl.
  pose proof (static_sum_list_with_insert _ _ _ p' Hi).
  pose proof (static_thread_step_weight _ _ _ _ _ _ Hs Ht). lia.
Qed.

Lemma static_remaining_start n : remaining (start n) = 3 * n.
Proof.
  unfold remaining, start. simpl. induction n as [|n IH]; simpl; lia.
Qed.

Lemma static_nsteps_remaining T n m c :
  never_throws T → nsteps (step T) m (start n) c → m + remaining c ≤ 3 * n.
Proof.
  intros HT H. rewrite <- static_remaining_start.
  assert (Hgen : ∀ c0, invariant c0 → nsteps (step T) m c0 c →
                        m + remaining c ≤ remaining c0).
  { clear H. intros c0 Hinv H. induction H as [|m c1 c2 c3 Hstep _ IH]; [lia|].
    assert (Hinv2 : invariant c2).
    { destruct Hstep as [i c1 c2 Hstep]. eapply static_invariant_step; eauto. }
    specialize (IH Hinv2).
    apply step_remaining in Hstep; [lia|]. apply (inv_running c2 Hinv2). }
  apply Hgen; [apply static_invariant_start | exact H].
Qed.

Lemma step_length T c c' : step T c c' → length (pcs c') = length (pcs c).
Proof.
  intros [i c1 c2 Hstep].
  apply static_config_step_inv in Hstep as (p & p' & s' & Hi & Hs & ->).
  simpl. apply length_insert.
Qed.

Lemma static_rtc_length T n c : rtc (step T) (start n) c → length (pcs c) = n.
Proof.
  revert c. apply rtc_ind_r.
  - apply length_replicate.
  - intros c c' _ Hstep IH. rewrite (step_length _ _ _ Hstep). exact IH.
Qed.

Lemma static_run_schedule_nsteps T sched c c' :
  run_schedule T sched c = Some c' → nsteps (step T) (length sched) c c'.
Proof.
  revert c. induction sched as [|i sched IH]; intros c H; simplify_eq/=.
  - apply nsteps_O.
  - destruct (config_step T i c) as [c1|] eqn:Hs; simplify_eq/=.
    eapply nsteps_l; [apply (step_thread T i), Hs | apply IH, H].
Qed.

(** All interleavings of [n] calls for a constructor that does not throw:
    they end after at most [3 * n] steps, keep the single-instance
    property, never deadlock, and once all calls returned the constructor
    was called exactly once. *)
Lemma static_interleavings_single_instance T n m c :
  never_throws T →
  nsteps (step T) m (start n) c →
  m ≤ 3 * n ∧ single_instance c ∧
  (all_returned c ∨ ∃ c', step T c c') ∧
  (all_returned c → 0 < n → ctor_runs (sh c) = 1).
Proof.
  intros HT H. pose proof (static_nsteps_remaining _ _ _ _ HT H) as Hm.
  apply rtc_nsteps_2 in H. pose proof (static_invariant_reachable _ HT _ _ H) as Hinv.
  pose proof (static_invariant_single_instance _ Hinv) as Hsi.
  split; [lia|]. split; [exact Hsi|]. split; [by apply static_invariant_progress|].
  intros Hall Hn. pose proof (static_rtc_length _ _ _ H) as Hlen.
  destruct (lookup_lt_is_Some_2 (pcs c) 0) as [p Hp]; [lia|].
  destruct (Hall _ _ Hp) as [r ->].
  destruct Hsi as [_ Hsi]. apply (Hsi 0 r). exact Hp.
Qed.

End Singleton3Spec.

(* ===================================================================== *)
(** * The accessors under concurrent first calls *)
(* ===================================================================== *)

Module LazySingletonSpec.

(** C6, as stated, fails for the double-checked-locking holder. Two
    threads: thread 0 runs lines 19, 20 and 21 and stands before the write
    of line 22, thread 1 stands before its first read of line 19. The two
    accesses race, the execution has undefined behaviour, and no handle is
    returned at all. *)
Lemma C6_counterexample :
  Singleton1.run_schedule [0; 0; 0] (Singleton1.start 2) = Some Singleton1.racing ∧
  Singleton1.race Singleton1.racing = true ∧
  ¬ (∀ n st,
       rtc Singleton1.step (Singleton1.Running (Singleton1.start n)) st →
       ∃ c, st = Singleton1.Running c ∧ Singleton1.single_instance c).
Proof.
  split; [reflexivity|]. split; [reflexivity|].
  intros H.
  destruct (H 2 _ Singleton1Spec.undefined_behaviour_reachable) as (c & Hc & _).
  discriminate.
Qed.

(** C6, amended. For the function-local static of [Singleton2] and
    [Singleton3<T>] with a constructor that does not throw, and for the
    double-checked-locking holder in the interleavings of its threads
    (each access to the pointer in one piece, no race taken into
    account): however [n] threads that call [get_instance] at the start
    are scheduled, after any number [m] of steps the constructor was
    called at most once and every call that returned holds the one
    constructed instance; the run is not stuck while a call is
    unfinished and has at most [3 * n], respectively [6 * n], steps; and
    when all [n > 0] calls returned the constructor was called exactly
    once. *)
Theorem C6_single_instance_interleavings (T : Singleton3.class_info) (n : nat) :
  Singleton3.never_throws T →
  (∀ m c, nsteps (Singleton3.step T) m (Singleton3.start n) c →
     m ≤ 3 * n ∧ Singleton3.single_instance c ∧
     (Singleton3.all_returned c ∨ ∃ c', Singleton3.step T c c') ∧
     (Singleton3.all_returned c → 0 < n → Singleton3.ctor_runs (Singleton3.sh c) = 1) ∧
     (∀ i j r1 r2, Singleton3.pcs c !! i = Some (Singleton3.Returned r1) →
                   Singleton3.pcs c !! j = Some (Singleton3.Returned r2) → r1 = r2)) ∧
  (∀ m c, nsteps Singleton1.sc_step m (Singleton1.start n) c →
     m ≤ 6 * n ∧ Singleton1.single_instance c ∧
     (Singleton1.all_returned c ∨ ∃ c', Singleton1.sc_step c c') ∧
     (Singleton1.all_returned c → 0 < n →
      Singleton1.constructor_calls (Singleton1.sh c) = 1) ∧
     (∀ i j h1 h2, Singleton1.returned c i = Some h1 →
                   Singleton1.returned c j = Some h2 → h1 = h2)).
Proof.
  intros HT. split.
  - intros m c H.
    destruct (Singleton3Spec.static_interleavings_single_instance _ _ _ _ HT H)
      as (H1 & H2 & H3 & H4).
    split; [exact H1|]. split; [exact H2|]. split; [exact H3|]. split; [exact H4|].
    intros i j [] [] _ _. reflexivity.
  - intros m c H.
    destruct (Singleton1Spec.interleavings_single_instance _ _ _ H)
      as (H1 & H2 & H3 & H4).
    split; [exact H1|]. split; [exact H2|]. split; [exact H3|]. split; [exact H4|].
    intros i j h1 h2. by apply Singleton1Spec.single_instance_same_handle.
Qed.

Lemma DerivedSingle_never_throws : Singleton3.never_throws Singleton3.DerivedSingle.
Proof. intros k. reflexivity. Qed.

Lemma C6_witness :
  Singleton3.never_throws Singleton3.DerivedSingle ∧
  (∃ c, Singleton3.run_schedule Singleton3.DerivedSingle [0; 0; 1; 0; 1]
          (Singleton3.start 2) = Some c ∧
        5 ≤ 3 * 2 ∧ Singleton3.single_instance c ∧
        Singleton3.ctor_runs (Singleton3.sh c) = 1) ∧
  (∃ c, Singleton1.run_schedule [0; 1; 1; 1; 1; 1; 1; 0; 0; 0; 0]
          (Singleton1.start 2) = Some c ∧
        11 ≤ 6 * 2 ∧ Singleton1.single_instance c ∧
        Singleton1.constructor_calls (Singleton1.sh c) = 1).
Proof.
  split; [exact DerivedSingle_never_throws|].
  destruct (C6_single_instance_interleavings Singleton3.DerivedSingle 2
              DerivedSingle_never_throws) as [H3 H1].
  split.
  - eexists.
    match goal with |- ?run = Some ?c ∧ _ =>
      assert (Hrun : run = Some c) by (vm_compute; reflexivity)
    end.
    split; [exact Hrun|].
    destruct (H3 _ _ (Singleton3Spec.static_run_schedule_nsteps _ _ _ _ Hrun))
      as (Hm & Hsi & _ & Hone & _).
    split; [exact Hm|]. split; [exact Hsi|]. vm_compute; reflexivity.
  - eexists.
    match goal with |- ?run = Some ?c ∧ _ =>
      assert (Hrun : run = Some c) by (vm_compute; reflexivity)
    end.
    split; [exact Hrun|].
    destruct (H1 _ _ (Singleton1Spec.run_schedule_nsteps _ _ _ Hrun))
      as (Hm & Hsi & _ & Hone & _).
    split; [exact Hm|]. split; [exact Hsi|]. vm_compute; reflexivity.
Defined.

(** C7, as stated, fails on the code. [m_instance_ptr] is a plain
    [std::shared_ptr]: the first read of line 19 and the write of line 22
    are ordinary accesses, the reader holds no lock, and with two threads
    the two accesses race, so some execution has undefined behaviour. *)
Lemma C7_counterexample :
  Singleton1.m_instance_ptr_kind = Singleton1.PlainObject ∧
  Singleton1.run_schedule [0; 0; 0] (Singleton1.start 2) = Some Singleton1.racing ∧
  Singleton1.pcs Singleton1.racing = [Singleton1.L22; Singleton1.L19] ∧
  Singleton1.m_mutex (Singleton1.sh Singleton1.racing) = Some 0 ∧
  Singleton1.races_at 1 0 Singleton1.racing = true ∧
  ¬ (∀ n st,
       rtc Singleton1.step (Singleton1.Running (Singleton1.start n)) st →
       st ≠ Singleton1.UndefinedBehaviour).
Proof.
  repeat (split; [reflexivity|]).
  intros H. exact (H 2 _ Singleton1Spec.undefined_behaviour_reachable eq_refl).
Qed.

(** C7, amended. The holder keeps its instance in a plain pointer, with
    no atomic operation and no fence, and orders accesses by the mutex
    alone. In every interleaving of [n] calls: at most one thread is
    between the second check of line 21 and the unlock of line 24; the
    thread before the write of line 22 owns the mutex and the pointer is
    still empty, so only one thread constructs; the reads of lines 19
    and 25 are made by threads that do not hold the mutex; and with two
    threads or more the first read of line 19 can run together with the
    write of line 22, a data race. *)
Theorem C7_mutex_orders_check_and_write (n : nat) (c : Singleton1.config) :
  rtc Singleton1.sc_step (Singleton1.start n) c →
  Singleton1.m_instance_ptr_kind = Singleton1.PlainObject ∧
  (∀ i j p q,
     Singleton1.pcs c !! i = Some p → Singleton1.pcs c !! j = Some q →
     Singleton1.in_critical_section p = true →
     Singleton1.in_critical_section q = true → i = j) ∧
  (∀ i, Singleton1.pcs c !! i = Some Singleton1.L22 →
     Singleton1.m_mutex (Singleton1.sh c) = Some i ∧
     Singleton1.m_instance_ptr (Singleton1.sh c) = None) ∧
  (∀ i p, Singleton1.pcs c !! i = Some p →
     p = Singleton1.L19 ∨ p = Singleton1.L25 →
     Singleton1.m_mutex (Singleton1.sh c) ≠ Some i) ∧
  (2 ≤ n →
   rtc Singleton1.step (Singleton1.Running (Singleton1.start n))
       Singleton1.UndefinedBehaviour).
Proof.
  intros H. pose proof (Singleton1Spec.invariant_reachable _ _ H) as Hinv.
  split; [reflexivity|]. split_and!.
  - intros i j p q. by apply Singleton1Spec.invariant_mutual_exclusion.
  - intros i Hi. split.
    + by apply (Singleton1.inv_owner c Hinv i Singleton1.L22).
    + by apply (Singleton1.inv_L22 c Hinv i).
  - intros i p Hi Hp.
    apply (Singleton1Spec.invariant_unlocked_reads c i p Hinv Hi).
    by destruct Hp as [-> | ->].
  - apply Singleton1Spec.race_reachable_among.
Qed.

Lemma C7_witness :
  rtc Singleton1.sc_step (Singleton1.start 2) Singleton1.racing ∧
  Singleton1.m_mutex (Singleton1.sh Singleton1.racing) = Some 0 ∧
  Singleton1.m_instance_ptr (Singleton1.sh Singleton1.racing) = None ∧
  Singleton1.m_mutex (Singleton1.sh Singleton1.racing) ≠ Some 1 ∧
  rtc Singleton1.step (Singleton1.Running (Singleton1.start 2))
      Singleton1.UndefinedBehaviour.
Proof.
  assert (H : rtc Singleton1.sc_step (Singleton1.start 2) Singleton1.racing).
  { apply (Singleton1Spec.run_schedule_sc [0; 0; 0]). reflexivity. }
  destruct (C7_mutex_orders_check_and_write 2 Singleton1.racing H)
    as (_ & _ & Hw & Hr & Hrace).
  split; [exact H|].
  destruct (Hw 0 eq_refl) as [Hm Hp].
  split; [exact Hm|]. split; [exact Hp|].
  split; [apply (Hr 1 Singleton1.L19 eq_refl); by left|].
  apply Hrace. lia.
Defined.

End LazySingletonSpec.

(* ===================================================================== *)
(** * Properties of [Singleton4] *)
(* ===================================================================== *)

Module Singleton4Spec.
Import Singleton4.

Lemma calls_unchanged k s : calls k s = (replicate k m_instance, s).
Proof. induction k as [|k IH]; simpl; [reflexivity|]. rewrite IH. reflexivity. Qed.




End Singleton4Spec.

(* ===================================================================== *)
(** * Further properties of [Clobal<T>] *)
(* ===================================================================== *)

Module ClobalCallsSpec.
Import Clobal ClobalCalls.

Section calls.
Context {T Args : Type}.
Variable ctor : Args → option T.
Implicit Types (s : state T) (l : loc) (v : T).

Lemma fresh_not_live s : heap s !! fresh (dom (heap s)) = None.
Proof. apply not_elem_of_dom, is_fresh. Qed.

(** X1. How [New] can end, and when. It returns exactly when the slot is
    empty and the constructor completes, and then the slot holds a fresh
    object; it throws exactly when the slot is empty and the constructor
    throws, and it aborts exactly when the slot is occupied, in both
    cases with the registry as it was; it never deletes anything. *)
Theorem New_outcomes (args : Args) s :
  (∀ s', New ctor args s = Ret () s' ↔
     ptr s = None ∧ ∃ v, ctor args = Some v ∧
       s' = {| ptr := Some (fresh (dom (heap s)));
               heap := <[fresh (dom (heap s)):=v]> (heap s);
               trace := trace s ++ [Constructed (fresh (dom (heap s))) v] |}) ∧
  (∀ s', New ctor args s = Thrown s' ↔
     ptr s = None ∧ ctor args = None ∧ s' = s) ∧
  (∀ s', New ctor args s = Aborted s' ↔ ptr s ≠ None ∧ s' = s) ∧
  New ctor args s ≠ Undefined ∧
  heap s !! fresh (dom (heap s)) = None.
Proof.
  destruct (ptr s) as [l|] eqn:Hp.
  - rewrite (ClobalSpec.New_occupied ctor s args l Hp).
    split_and!; try (intros s'; split); try done; try apply fresh_not_live;
      intros H; try destruct H as (? & ? & ? & ?); destruct_and?; simplify_eq; eauto.
  - destruct (ctor args) as [v|] eqn:Hc.
    + rewrite (ClobalSpec.New_empty ctor s args v Hp Hc).
      split_and!; try (intros s'; split); try done; try apply fresh_not_live;
      intros H; try destruct H as (? & ? & ? & ?); destruct_and?; simplify_eq; eauto.
    + rewrite (ClobalSpec.New_throws ctor s args Hp Hc).
      split_and!; try (intros s'; split); try done; try apply fresh_not_live;
      intros H; try destruct H as (? & ? & ? & ?); destruct_and?; simplify_eq; eauto.
Qed.

(** X2. [New] and then [Delete]: the slot is empty again and the heap is the
    heap from before; the trace has grown by one construction, one
    destruction and the line of [Delete]. *)
Theorem New_Delete_round_trip (args : Args) s v :
  ptr s = None → ctor args = Some v →
  (New ctor args ≫= λ _, Delete) s =
    Ret () {| ptr := None; heap := heap s;
              trace := trace s ++ [Constructed (fresh (dom (heap s))) v;
                                   Destroyed (fresh (dom (heap s))) v;
                                   Cout "Delete"] |}.
Proof.
  intros Hp Hc. unfold mbind at 1, M_bind at 1.
  rewrite (ClobalSpec.New_empty ctor s args v Hp Hc).
  erewrite ClobalSpec.Delete_live; [|reflexivity|simpl; apply lookup_insert_eq].
  simpl. rewrite delete_insert_eq, delete_id by apply fresh_not_live.
  rewrite <- app_assoc. reflexivity.
Qed.

(** X3. [New] and [Delete] touch no object but the one of the slot: every
    other live object stays as it is, and the trace only grows. *)
Theorem New_Delete_frame (args : Args) s s' :
  (New ctor args s = Ret () s' →
     (∀ l v, heap s !! l = Some v → heap s' !! l = Some v) ∧
     trace s `prefix_of` trace s') ∧
  (Delete s = Ret () s' →
     (∀ l, ptr s ≠ Some l → heap s' !! l = heap s !! l) ∧
     trace s `prefix_of` trace s').
Proof.
  split.
  - destruct (ptr s) as [l0|] eqn:Hp.
    { by rewrite (ClobalSpec.New_occupied ctor s args l0 Hp). }
    destruct (ctor args) as [v|] eqn:Hc.
    + rewrite (ClobalSpec.New_empty ctor s args v Hp Hc). intros [= <-].
      simpl. split; [|by apply prefix_app_r].
      intros l v' Hl. rewrite lookup_insert_ne; [done|].
      intros <-. rewrite fresh_not_live in Hl. done.
    + by rewrite (ClobalSpec.New_throws ctor s args Hp Hc).
  - destruct (ptr s) as [l0|] eqn:Hp.
    + destruct (heap s !! l0) as [v|] eqn:Hh.
      * rewrite (ClobalSpec.Delete_live s l0 v Hp Hh). intros [= <-]. simpl.
        split; [|by apply prefix_app_r].
        intros l Hl. rewrite lookup_delete_ne; [done|]. congruence.
      * rewrite (ClobalSpec.Delete_dangling s l0 Hp Hh). done.
    + rewrite (ClobalSpec.Delete_empty s Hp). intros [= <-]. done.
Qed.

Lemma do_call_slot_ok (c : call) s :
  slot_ok s →
  match do_call ctor c s with
  | Ret _ s' | Aborted s' | Thrown s' => slot_ok s'
  | Undefined => False
  end.
Proof.
  intros Hok. destruct c as [|args|]; simpl.
  - exact Hok.
  - destruct (ptr s) as [l|] eqn:Hp.
    + by rewrite (ClobalSpec.New_occupied ctor s args l Hp).
    + destruct (ctor args) as [v|] eqn:Hc.
      * rewrite (ClobalSpec.New_empty ctor s args v Hp Hc).
        intros l [= <-]. simpl. rewrite lookup_insert_eq. eauto.
      * by rewrite (ClobalSpec.New_throws ctor s args Hp Hc).
  - destruct (ClobalSpec.Delete_defined s Hok) as [s' Hs']. rewrite Hs'.
    eapply ClobalSpec.Delete_slot_ok, Hs'.
Qed.

(** X4. Whatever a caller does with [Get], [New] and [Delete], starting with
    a slot that is empty or owns a live object: no call deletes what is
    not a live object, and the slot keeps being empty or owning a live
    object. An exception never leaves the caller that catches them. *)
Theorem run_never_undefined (cs : list call) s :
  slot_ok s →
  match run ctor cs s with
  | Ret _ s' | Aborted s' => slot_ok s'
  | Thrown _ | Undefined => False
  end.
Proof.
  revert s. induction cs as [|c cs IH]; intros s Hok; simpl; [exact Hok|].
  pose proof (do_call_slot_ok c s Hok) as H.
  destruct (do_call ctor c s) as [[] s'|s'|s'|]; try done; by apply IH.
Qed.

Lemma constructor_calls_app (tr1 tr2 : list (event T)) :
  constructor_calls (tr1 ++ tr2) = constructor_calls tr1 + constructor_calls tr2.
Proof. unfold constructor_calls. rewrite filter_app, length_app. reflexivity. Qed.

Lemma one_instance_slot_ok s : one_instance s → slot_ok s.
Proof.
  unfold one_instance. intros H l Hl. rewrite Hl in H.
  destruct H as [[v ->] _]. rewrite lookup_singleton_eq. eauto.
Qed.

Lemma do_call_one_instance (c : call) s :
  one_instance s →
  match do_call ctor c s with
  | Ret _ s' | Aborted s' | Thrown s' => one_instance s'
  | Undefined => False
  end.
Proof.
  intros Hone. pose proof (one_instance_slot_ok s Hone) as Hok.
  destruct c as [|args|]; simpl.
  - exact Hone.
  - destruct (ptr s) as [l|] eqn:Hp.
    + by rewrite (ClobalSpec.New_occupied ctor s args l Hp).
    + destruct (ctor args) as [v|] eqn:Hc.
      * rewrite (ClobalSpec.New_empty ctor s args v Hp Hc).
        unfold one_instance in *. rewrite Hp in Hone. destruct Hone as [Hh Hn].
        simpl. split.
        -- exists v. rewrite Hh. apply insert_empty.
        -- rewrite constructor_calls_app, ClobalSpec.destructor_calls_app, Hn.
           unfold constructor_calls, destructor_calls. simpl. lia.
      * by rewrite (ClobalSpec.New_throws ctor s args Hp Hc).
  - destruct (ptr s) as [l|] eqn:Hp.
    + unfold one_instance in Hone. rewrite Hp in Hone.
      destruct Hone as [[v Hh] Hn].
      assert (Hl : heap s !! l = Some v) by (rewrite Hh; apply lookup_singleton_eq).
      rewrite (ClobalSpec.Delete_live s l v Hp Hl).
      unfold one_instance. simpl. split.
      * rewrite Hh. apply delete_singleton_eq.
      * rewrite constructor_calls_app, ClobalSpec.destructor_calls_app, Hn.
        unfold constructor_calls, destructor_calls. simpl. lia.
    + by rewrite (ClobalSpec.Delete_empty s Hp).
Qed.

Lemma one_instance_kept (cs : list call) s :
  one_instance s →
  match run ctor cs s with
  | Ret _ s' | Aborted s' => one_instance s'
  | Thrown _ | Undefined => False
  end.
Proof.
  revert s. induction cs as [|c cs IH]; intros s Hone; simpl; [exact Hone|].
  pose proof (do_call_one_instance c s Hone) as H.
  destruct (do_call ctor c s) as [[] s'|s'|s'|]; try done; by apply IH.
Qed.

(** X5. From the start of the program, after any calls of [Get], [New] and
    [Delete]: at most one object of type [T] lives, it is the one the slot
    owns, and every other object that was constructed has been destroyed. *)
Theorem run_one_instance (cs : list call) :
  match run ctor cs initial with
  | Ret _ s' | Aborted s' => one_instance s'
  | Thrown _ | Undefined => False
  end.
Proof. apply one_instance_kept. split; reflexivity. Qed.

End calls.

Lemma scenario_slot_ok : slot_ok scenario_state.
Proof. intros l [= <-]. exists (mkFoo 1 2). reflexivity. Qed.

Lemma New_Delete_round_trip_witness :
  (New Foo_ctor (1, 2)%Z ≫= λ _, Delete) (initial (T:=Foo)) =
    Ret () {| ptr := None; heap := ∅;
              trace := [Constructed (fresh (dom (∅ : gmap loc Foo))) (mkFoo 1 2);
                        Destroyed (fresh (dom (∅ : gmap loc Foo))) (mkFoo 1 2);
                        Cout "Delete"] |}.
Proof.
  apply (New_Delete_round_trip Foo_ctor (1, 2)%Z initial (mkFoo 1 2)); reflexivity.
Defined.

Lemma run_never_undefined_witness :
  match run Foo_ctor [CallDelete; CallDelete; CallNew (3, 4)%Z; CallNew (5, 6)%Z]
            scenario_state with
  | Ret _ s' | Aborted s' => slot_ok s'
  | Thrown _ | Undefined => False
  end.
Proof.
  apply (run_never_undefined Foo_ctor
           [CallDelete; CallDelete; CallNew (3, 4)%Z; CallNew (5, 6)%Z]
           scenario_state).
  exact scenario_slot_ok.
Defined.

End ClobalCallsSpec.

(* ===================================================================== *)
(** * Further properties of [Singleton1] *)
(* ===================================================================== *)

Module Singleton1LifetimeSpec.
Import Singleton1 Singleton1Lifetime.

Implicit Types (s : shared) (c : config) (p : pc) (l : loc) (o : owner).

(** X6. A call can wait only on its first use, for the mutex: it returns
    nothing exactly when the pointer is empty and the mutex is held. When
    it returns, the handle is not null and is what the static pointer now
    holds, the mutex is as the call found it, and no object and no line of
    output is lost. *)
Theorem get_instance_waits_only_for_mutex (i : tid) s :
  (get_instance i s = None ↔ m_instance_ptr s = None ∧ m_mutex s ≠ None) ∧
  (∀ h s', get_instance i s = Some (h, s') →
     h ≠ None ∧ m_instance_ptr s' = h ∧ m_mutex s' = m_mutex s ∧
     heap s ⊆ heap s' ∧ out s `prefix_of` out s').
Proof.
  destruct (m_instance_ptr s) as [l|] eqn:Hp.
  - rewrite (Singleton1Spec.get_instance_later i s l Hp). split.
    + split; [done|]. intros [? _]. done.
    + intros h s' [= <- <-]. simpl. done.
  - destruct (m_mutex s) as [j|] eqn:Hm.
    + assert (Hnone : get_instance i s = None).
      { unfold get_instance, lock. rewrite Hp, Hm. reflexivity. }
      rewrite Hnone. split; [done|]. intros h s' [=].
    + rewrite (Singleton1Spec.get_instance_first i s Hp Hm). split.
      * split; [done|]. intros [_ ?]. done.
      * intros h s' [= <- <-]. simpl.
        split_and!; try done; [set_solver | by apply prefix_app_r].
Qed.

Lemma sum_list_with_insert_any (f : pc → nat) (ps : list pc) i p p' :
  ps !! i = Some p →
  sum_list_with f (<[i:=p']> ps) + f p = sum_list_with f ps + f p'.
Proof.
  revert i. induction ps as [|q ps IH]; intros [|i] Hi; simplify_eq/=; [lia|].
  specialize (IH _ Hi). lia.
Qed.

Lemma counted_start n : counted (start n).
Proof.
  unfold counted, handles, start. simpl.
  induction n as [|n IH]; simpl; [reflexivity|exact IH].
Qed.

Lemma counted_step i c c' :
  invariant c → counted c → config_step i c = Some c' → counted c'.
Proof.
  intros Hinv Hcnt Hstep.
  apply Singleton1Spec.config_step_inv in Hstep as (p & p' & s' & Hi & Hs & ->).
  unfold counted, handles in *. simpl.
  pose proof (sum_list_with_insert_any
                (λ p, match p with Returned _ => 1 | _ => 0 end) _ _ _ p' Hi) as Hsum.
  destruct p; simpl in Hs; simplify_eq/=; try case_bool_decide;
    try (unfold lock in Hs; destruct (m_mutex (sh c)); simplify_eq/=);
    try (match goal with
         | Hsum : ?a + _ = ?b + _ |- _ =>
             let Hh := fresh in
             assert (Hh : a = b) by (simpl in Hsum; lia); rewrite Hh; exact Hcnt
         end).
  - (* line 22 *)
    rewrite (inv_L22 c Hinv _ Hi) in Hcnt.
    rewrite lookup_insert_eq. f_equal. simpl in Hsum. lia.
  - (* line 25 *)
    pose proof (inv_after c Hinv _ _ Hi eq_refl) as Hne.
    destruct (m_instance_ptr (sh c)) as [l|] eqn:Hl; [|done]. simpl.
    rewrite lookup_alter_eq, Hcnt. simpl. f_equal. simpl in Hsum. lia.
Qed.

(** X7. In every interleaving of [n] calls, every owner of the instance is
    counted: its use count is one for the static pointer plus one for
    each handle that a call has returned, and no handle exists before the
    pointer is set. *)
Theorem use_count_counts_handles (n : nat) c :
  rtc sc_step (start n) c → counted c.
Proof.
  intros H. pose proof (Singleton1Spec.invariant_reachable n c H) as Hinv.
  revert c H Hinv. apply (rtc_ind_r (λ c, invariant c → counted c)).
  - intros _. apply counted_start.
  - intros c c' Hrtc Hstep IH _. destruct Hstep as [i c c' Hstep].
    pose proof (Singleton1Spec.invariant_reachable n c Hrtc) as Hinv.
    eapply counted_step; eauto.
Qed.

Lemma use_count_counts_handles_witness :
  ∃ c, run_schedule [0; 1; 1; 1; 1; 1; 1; 0; 0; 0; 0] (start 2) = Some c ∧
       counted c.
Proof.
  eexists.
  match goal with |- ?run = Some ?c ∧ _ =>
    assert (Hrun : run = Some c) by (vm_compute; reflexivity)
  end.
  split; [exact Hrun|].
  apply (use_count_counts_handles 2).
  apply (Singleton1Spec.run_schedule_sc _ _ _ Hrun).
Defined.

(** ** The end of the instance *)

Lemma destructor_calls_out s s' : out s' = out s → destructor_calls s' = destructor_calls s.
Proof. unfold destructor_calls. by intros ->. Qed.

(** An owner that is not the last one only lowers the count. *)
Lemma let_go_not_last l s o o' os :
  owners_left l s (o :: o' :: os) →
  owners_left l (let_go s o) (o' :: os) ∧
  out (let_go s o) = out s ∧ heap (let_go s o) = heap s.
Proof.
  intros (Hc & Hl & Hall & Hst).
  apply Forall_cons in Hall as [Ho Hall].
  destruct Ho as [-> | ->].
  - rewrite filter_cons_True in Hst by done. simpl in Hst.
    destruct Hst as [[Hp Hn] | [_ Hn]]; [|lia].
    unfold let_go. rewrite Hp. unfold release. simpl in *. rewrite Hc.
    split; [|done]. split_and!; simpl; try done.
    + apply lookup_insert_eq.
    + right. split; [done|lia].
  - rewrite filter_cons_False in Hst by done.
    unfold let_go, release. simpl in *. rewrite Hc.
    split; [|done]. split_and!; simpl; try done.
    apply lookup_insert_eq.
Qed.

(** The last owner deletes the object. *)
Lemma let_go_last l s o :
  owners_left l s [o] →
  heap (let_go s o) = heap s ∖ {[l]} ∧
  out (let_go s o) = out s ++ ["destructor called"] ∧
  m_instance_ptr (let_go s o) = None.
Proof.
  intros (Hc & Hl & Hall & Hst).
  apply Forall_cons in Hall as [Ho _].
  destruct Ho as [-> | ->].
  - rewrite filter_cons_True in Hst by done. simpl in Hst.
    destruct Hst as [[Hp Hn] | [_ Hn]]; [|lia].
    unfold let_go. rewrite Hp. unfold release. simpl in *. rewrite Hc. done.
  - rewrite filter_cons_False in Hst by done. simpl in Hst.
    destruct Hst as [[_ Hn] | [Hp _]]; [lia|].
    unfold let_go, release. simpl in *. rewrite Hc. done.
Qed.

Lemma let_go_prefix l os1 : ∀ s os2,
  os2 ≠ [] → owners_left l s (os1 ++ os2) →
  owners_left l (foldl let_go s os1) os2 ∧
  out (foldl let_go s os1) = out s ∧ heap (foldl let_go s os1) = heap s.
Proof.
  induction os1 as [|o os1 IH]; intros s os2 Hne H; [done|].
  simpl in *.
  destruct (os1 ++ os2) as [|o' os] eqn:Hos.
  { apply app_eq_nil in Hos as [_ ->]. done. }
  destruct (let_go_not_last l s o o' os H) as (H' & Hout & Hheap).
  rewrite <- Hos in H'.
  destruct (IH _ _ Hne H') as (H'' & Hout' & Hheap').
  split; [done|]. split; congruence.
Qed.

Lemma no_static_handle (hs : list (option loc)) :
  filter (λ o, o = Static) (Handle <$> hs) = [].
Proof.
  induction hs as [|h hs IH]; [done|]. simpl.
  rewrite filter_cons_False by done. exact IH.
Qed.

Lemma last_owner (os : list owner) : os = [] ∨ ∃ os1 o, os = os1 ++ [o].
Proof. destruct os as [|o os _] using rev_ind; eauto. Qed.

Lemma calls_from_empty i k s :
  m_instance_ptr s = None → m_mutex s = None →
  ∃ s', calls (S k) i s = Some (replicate (S k) (Some (fresh (heap s))), s') ∧
        m_instance_ptr s' = Some (fresh (heap s)) ∧
        heap s' = {[fresh (heap s)]} ∪ heap s ∧
        out s' = out s ++ ["constructor called"] ∧
        use_count s' !! fresh (heap s) = Some (S (S k)).
Proof.
  intros Hp Hm. set (l := fresh (heap s)).
  pose proof (Singleton1Spec.get_instance_first i s Hp Hm) as H1. fold l in H1.
  set (s1 := {| m_instance_ptr := Some l; m_mutex := None; heap := {[l]} ∪ heap s;
                use_count := alter S l (<[l:=1]> (use_count s));
                out := out s ++ ["constructor called"] |}) in *.
  destruct (Singleton1Spec.calls_later k i s1 l 2)
    as (s' & Hc & Hp' & Hm' & Hh' & Ho' & Hu').
  { reflexivity. }
  { simpl. rewrite lookup_alter_eq, lookup_insert_eq. reflexivity. }
  exists s'. split.
  { simpl. rewrite H1. simpl. rewrite Hc. reflexivity. }
  split; [done|]. split; [done|]. split; [done|].
  rewrite Hu'. f_equal. lia.
Qed.

(** X8. The instance dies once, by its last owner. After any number of calls
    from a state with the pointer empty, let the static pointer (at the
    end of the program) and the returned handles be destroyed in any
    order: as long as an owner is left the object lives and its destructor
    has not run; when the last one is gone the destructor has run exactly
    once, the object is gone and the heap is the heap from before the
    first call. *)
Theorem destroyed_once_by_last_owner (i : tid) (k : nat) s :
  m_instance_ptr s = None → m_mutex s = None →
  ∃ hs s', calls (S k) i s = Some (hs, s') ∧
    ∀ os, os ≡ₚ Static :: (Handle <$> hs) →
      (∀ os1 os2, os = os1 ++ os2 → os2 ≠ [] →
         fresh (heap s) ∈ heap (foldl let_go s' os1) ∧
         destructor_calls (foldl let_go s' os1) = destructor_calls s) ∧
      heap (foldl let_go s' os) = heap s ∧
      destructor_calls (foldl let_go s' os) = S (destructor_calls s) ∧
      m_instance_ptr (foldl let_go s' os) = None.
Proof.
  intros Hp Hm. set (l := fresh (heap s)).
  destruct (calls_from_empty i k s Hp Hm) as (s' & Hc & Hp' & Hh' & Ho' & Hu').
  fold l in Hc, Hp', Hh', Ho', Hu'.
  exists (replicate (S k) (Some l)), s'. split; [exact Hc|].
  intros os Hperm.
  assert (Hd : destructor_calls s' = destructor_calls s).
  { unfold destructor_calls. rewrite Ho', filter_app, length_app. simpl. lia. }
  assert (Hleft : owners_left l s' os).
  { split_and!.
    - rewrite Hu', Hperm. simpl. rewrite length_fmap, length_replicate. done.
    - rewrite Hh'. apply elem_of_union. left. by apply elem_of_singleton.
    - rewrite Hperm. apply Forall_cons. split; [by left|].
      apply Forall_fmap, Forall_replicate. by right.
    - left. split; [done|]. rewrite Hperm.
      rewrite filter_cons_True by done. rewrite no_static_handle. done. }
  split.
  - intros os1 os2 -> Hne.
    destruct (let_go_prefix l os1 s' os2 Hne Hleft) as ((_ & Hin & _) & Hout & _).
    split; [exact Hin|]. rewrite (destructor_calls_out _ _ Hout). exact Hd.
  - destruct (last_owner os) as [-> | (os1 & o & ->)].
    { apply Permutation_nil_cons in Hperm. done. }
    destruct (let_go_prefix l os1 s' [o] ltac:(done) Hleft) as (Hlast & Hout & Hheap).
    destruct (let_go_last l _ o Hlast) as (Hheap' & Hout' & Hptr').
    rewrite foldl_app. simpl. split_and!.
    + rewrite Hheap', Hheap, Hh'.
      rewrite difference_union_distr_l_L, difference_diag_L, union_empty_l_L.
      apply difference_disjoint_L, disjoint_singleton_r, is_fresh.
    + unfold destructor_calls in *. rewrite Hout', Hout, filter_app, length_app.
      simpl. lia.
    + exact Hptr'.
Qed.

Lemma destroyed_once_by_last_owner_witness :
  ∃ hs s', calls 2 0 initial = Some (hs, s') ∧
    ∀ os, os ≡ₚ Static :: (Handle <$> hs) →
      (∀ os1 os2, os = os1 ++ os2 → os2 ≠ [] →
         fresh (heap initial) ∈ heap (foldl let_go s' os1) ∧
         destructor_calls (foldl let_go s' os1) = destructor_calls initial) ∧
      heap (foldl let_go s' os) = heap initial ∧
      destructor_calls (foldl let_go s' os) = S (destructor_calls initial) ∧
      m_instance_ptr (foldl let_go s' os) = None.
Proof.
  apply (destroyed_once_by_last_owner 0 1 initial); reflexivity.
Defined.

(** ** Calls after the instance exists *)






End Singleton1LifetimeSpec.

(* ===================================================================== *)
(** * Further properties of the function-local static *)
(* ===================================================================== *)

Module Singleton3CallsSpec.
Import Singleton3 Singleton3Calls.

Implicit Types (T : class_info) (s : shared) (c : config) (p : pc).

(** ** One caller, with constructors that throw *)

Lemma calls_initialised T k s :
  terminated s = false → instance_guard s = Initialised →
  calls T k s = (replicate k (Returns instance), s).
Proof.
  intros Ht Hg. induction k as [|k IH]; [reflexivity|]. simpl.
  rewrite (Singleton3Spec.get_instance_initialised T s Ht Hg), IH. reflexivity.
Qed.

(** X10. A constructor that fails [m] times and then completes, behind an
    accessor that is [noexcept(false)]: the first [m] calls throw, each
    one after a new run of the constructor; call [m + 1] runs it once
    more and returns the instance; every later call returns the instance
    and runs no constructor, whatever further runs would have done. *)
Theorem calls_retry_until_constructed T (m k : nat) s :
  is_nothrow_constructible T = false →
  terminated s = false → instance_guard s = Uninitialised →
  (∀ j, j < m → ctor_throws T (ctor_runs s + j) = true) →
  ctor_throws T (ctor_runs s + m) = false →
  calls T (m + S k) s =
    (replicate m Throws ++ replicate (S k) (Returns instance),
     {| instance_guard := Initialised; ctor_runs := ctor_runs s + S m;
        terminated := false |}).
Proof.
  intros Hn. revert s. induction m as [|m IH]; intros s Ht Hg Hfail Hok.
  - rewrite Nat.add_0_r in Hok. simpl.
    rewrite (Singleton3Spec.get_instance_constructs T s Ht Hg Hok).
    rewrite calls_initialised by reflexivity.
    replace (ctor_runs s + 1) with (S (ctor_runs s)) by lia. reflexivity.
  - assert (H0 : ctor_throws T (ctor_runs s) = true).
    { rewrite <- (Nat.add_0_r (ctor_runs s)). apply Hfail. lia. }
    simpl. rewrite (Singleton3Spec.get_instance_propagates T s Hn Ht Hg H0).
    rewrite IH; [| reflexivity | reflexivity | |]; simpl.
    + replace (S (ctor_runs s + S m)) with (ctor_runs s + S (S m)) by lia.
      reflexivity.
    + intros j Hj. replace (S (ctor_runs s + j)) with (ctor_runs s + S j) by lia.
      apply Hfail. lia.
    + replace (S (ctor_runs s + m)) with (ctor_runs s + S m) by lia. exact Hok.
Qed.

Lemma calls_retry_until_constructed_witness :
  calls FailsOnce (1 + 2) initial =
    (replicate 1 Throws ++ replicate 2 (Returns instance),
     {| instance_guard := Initialised; ctor_runs := ctor_runs initial + 2;
        terminated := false |}).
Proof.
  apply (calls_retry_until_constructed FailsOnce 1 1 initial); try reflexivity.
  intros j Hj. assert (j = 0) as -> by lia. reflexivity.
Defined.

(** ** Several callers, with constructors that throw *)

Lemma guarded_start n : guarded (start n).
Proof.
  split; unfold start; simpl.
  - intros i [? _]%lookup_replicate. discriminate.
  - discriminate.
  - intros i p [-> _]%lookup_replicate. discriminate.
Qed.

Ltac other_thread H :=
  apply list_lookup_insert_Some in H;
  destruct H as [(<- & ? & ?) | (? & H)]; simplify_eq/=;
  try done; eauto.

Lemma guarded_step T i c c' :
  guarded c → config_step T i c = Some c' → terminated (sh c') = false →
  guarded c'.
Proof.
  intros [Hctor Hini Hpast] Hstep Ht'.
  apply Singleton3Spec.static_config_step_inv in Hstep
    as (p & p' & s' & Hi & Hs & ->).
  unfold thread_step in Hs. simpl in Ht'.
  destruct (terminated (sh c)) eqn:Hrun; [done|].
  assert (Hlen : i < length (pcs c)) by (eapply lookup_lt_Some, Hi).
  assert (Hfin : ∀ q s1,
            (∀ j, <[i:=q]> (pcs c) !! j = Some L65_ctor →
                  instance_guard s1 = Initialising j) →
            (∀ j, instance_guard s1 = Initialising j →
                  <[i:=q]> (pcs c) !! j = Some L65_ctor) →
            (∀ j r, <[i:=q]> (pcs c) !! j = Some r → past_declaration r = true →
                    instance_guard s1 = Initialised) →
            guarded {| pcs := <[i:=q]> (pcs c); sh := s1 |}).
  { intros q s1 H1 H2 H3. by split. }
  destruct p; simplify_eq/=.
  - (* line 65, the declaration *)
    destruct (instance_guard (sh c)) as [|o|] eqn:Hg; simplify_eq/=;
      apply Hfin; simpl; rewrite ?Hg.
    + intros j Hj; other_thread Hj; specialize (Hctor _ Hj); congruence.
    + intros j [= <-]. by apply list_lookup_insert_eq.
    + intros j q Hj Hq; other_thread Hj; specialize (Hpast _ _ Hj Hq); congruence.
    + intros j Hj; other_thread Hj; specialize (Hctor _ Hj); congruence.
    + done.
    + done.
  - (* line 65, the constructor *)
    pose proof (Hctor _ Hi) as Hg.
    destruct (ctor_throws T (ctor_runs (sh c))), (is_nothrow_constructible T);
      simplify_eq/=; apply Hfin; simpl; try done.
    + intros j Hj; other_thread Hj; specialize (Hctor _ Hj); congruence.
    + intros j q Hj Hq; other_thread Hj; specialize (Hpast _ _ Hj Hq); congruence.
    + intros j Hj; other_thread Hj; specialize (Hctor _ Hj); congruence.
    + intros j Hj; other_thread Hj; specialize (Hctor _ Hj); congruence.
  - (* line 66 *)
    pose proof (Hpast _ _ Hi eq_refl) as Hg.
    apply Hfin; simpl; rewrite ?Hg; try done.
    intros j Hj; other_thread Hj; specialize (Hctor _ Hj); congruence.
Qed.

Lemma step_running T c c' : step T c c' → terminated (sh c) = false.
Proof.
  intros [i c1 c2 Hstep].
  apply Singleton3Spec.static_config_step_inv in Hstep
    as (p & p' & s' & Hi & Hs & ->).
  unfold thread_step in Hs. by destruct (terminated (sh c1)).
Qed.

Lemma guarded_reachable T n c :
  rtc (step T) (start n) c → terminated (sh c) = false → guarded c.
Proof.
  revert c. apply (rtc_ind_r (λ c, terminated (sh c) = false → guarded c)).
  - intros _. apply guarded_start.
  - intros c c' _ Hstep IH Ht'.
    pose proof (step_running _ _ _ Hstep) as Ht.
    destruct Hstep as [i c c' Hstep].
    eapply guarded_step; eauto.
Qed.

(** X11. For every class, also one whose constructor throws, and however [n]
    threads that call the accessor are scheduled, as long as
    [std::terminate] was not called: at most one thread is inside the
    constructor; a thread is past the declaration only when the instance
    is initialised; once it is initialised no step changes the shared
    state, so the constructor is never run again; and while a call is
    under way some thread can step, so an initialisation that threw
    leaves no thread waiting for ever. *)
Theorem initialisation_is_exclusive T (n : nat) c :
  rtc (step T) (start n) c → terminated (sh c) = false →
  (∀ i j, pcs c !! i = Some L65_ctor → pcs c !! j = Some L65_ctor → i = j) ∧
  (∀ i p, pcs c !! i = Some p → past_declaration p = true →
     instance_guard (sh c) = Initialised) ∧
  (instance_guard (sh c) = Initialised → ∀ c', step T c c' → sh c' = sh c) ∧
  ((∃ i p, pcs c !! i = Some p ∧ unfinished p = true) → ∃ c', step T c c').
Proof.
  intros Hrtc Ht. pose proof (guarded_reachable T n c Hrtc Ht) as [Hctor Hini Hpast].
  split_and!.
  - intros i j Hi Hj. pose proof (Hctor _ Hi). pose proof (Hctor _ Hj). congruence.
  - exact Hpast.
  - intros Hg c' Hstep. destruct Hstep as [i c c' Hstep].
    apply Singleton3Spec.static_config_step_inv in Hstep
      as (p & p' & s' & Hi & Hs & ->).
    simpl. unfold thread_step in Hs. rewrite Ht in Hs.
    destruct p; simplify_eq/=.
    + rewrite Hg in Hs. by simplify_eq/=.
    + pose proof (Hctor _ Hi). congruence.
    + done.
  - intros (i & p & Hi & Hp).
    assert (Hgo : ∀ j q ps, pcs c !! j = Some q →
                             thread_step T j q (sh c) = Some ps → ∃ c', step T c c').
    { intros j q [q' s'] Hj Hs. eexists. apply (step_thread T j).
      unfold config_step. rewrite Hj. simpl. rewrite Hs. reflexivity. }
    assert (Hc : ∀ j, pcs c !! j = Some L65_ctor → ∃ c', step T c c').
    { intros j Hj.
      destruct (ctor_throws T (ctor_runs (sh c))) eqn:Hthrow,
               (is_nothrow_constructible T) eqn:Hn;
        (eapply Hgo; [exact Hj|]; unfold thread_step;
         rewrite Ht, Hthrow, ?Hn; reflexivity). }
    destruct p; try done.
    + destruct (instance_guard (sh c)) as [|j|] eqn:Hg.
      * eapply Hgo; [exact Hi|]. unfold thread_step. rewrite Ht, Hg. reflexivity.
      * apply (Hc j). by apply Hini.
      * eapply Hgo; [exact Hi|]. unfold thread_step. rewrite Ht, Hg. reflexivity.
    + by apply (Hc i).
    + eapply Hgo; [exact Hi|]. unfold thread_step. rewrite Ht. reflexivity.
Qed.

Lemma initialisation_is_exclusive_witness :
  ∃ c, run_schedule FailsOnce [0; 0] (start 2) = Some c ∧
       pcs c = [Threw; L65] ∧ ∃ c', step FailsOnce c c'.
Proof.
  eexists.
  match goal with |- ?run = Some ?c ∧ _ =>
    assert (Hrun : run = Some c) by (vm_compute; reflexivity)
  end.
  split; [exact Hrun|]. split; [reflexivity|].
  eapply (proj2 (proj2 (proj2 (initialisation_is_exclusive FailsOnce 2 _
            (rtc_nsteps_2 _ _ _
               (Singleton3Spec.static_run_schedule_nsteps _ _ _ _ Hrun))
            eq_refl)))).
  exists 1, L65. split; reflexivity.
Defined.

(** ** The program *)

(** X12. [main] (lines 88-91), for every class and every state it may start
    in: when its first call returns, the second call returns the same
    instance and changes nothing, so the constructor ran at most once
    during [main] and the instance is initialised at its end. *)
Theorem main_same_instance T s (r1 : reference) (o2 : outcome) (s2 : shared) :
  main T s = ((Returns r1, o2), s2) →
  o2 = Returns r1 ∧ s2 = snd (get_instance T s) ∧
  instance_guard s2 = Initialised ∧ ctor_runs s2 ≤ S (ctor_runs s).
Proof.
  unfold main, get_instance. destruct s as [g k t]. simpl. intros H.
  destruct r1.
  repeat (case_match; simplify_eq/=); split_and!; try reflexivity; lia.
Qed.

Lemma main_same_instance_witness :
  main DerivedSingle initial =
    ((Returns instance, Returns instance),
     {| instance_guard := Initialised; ctor_runs := 1; terminated := false |}) ∧
  ctor_runs {| instance_guard := Initialised; ctor_runs := 1; terminated := false |}
    ≤ S (ctor_runs initial).
Proof.
  split; [reflexivity|].
  apply (main_same_instance DerivedSingle initial instance (Returns instance)
           {| instance_guard := Initialised; ctor_runs := 1; terminated := false |}).
  reflexivity.
Defined.

End Singleton3CallsSpec.

(* ===================================================================== *)
(** * Lazy and eager instances over a whole run *)
(* ===================================================================== *)

Module WholeRunSpec.

Lemma get_global_again (s : GetGlobal.program) :
  GetGlobal.get_global (snd (GetGlobal.get_global s)) =
    (GetGlobal.instance, snd (GetGlobal.get_global s)).
Proof.
  unfold GetGlobal.get_global.
  destruct (GetGlobal.instance_constructed s) eqn:H; simpl; rewrite ?H; reflexivity.
Qed.

Lemma get_global_calls (k : nat) (s : GetGlobal.program) :
  GetGlobal.calls (S k) s =
    (replicate (S k) GetGlobal.instance, snd (GetGlobal.get_global s)).
Proof.
  revert s. induction k as [|k IH]; intros s.
  - unfold GetGlobal.calls. by destruct (GetGlobal.get_global s) as [[] s1].
  - change (GetGlobal.calls (S (S k)) s) with
      (let '(r, s1) := GetGlobal.get_global s in
       let '(rs, s2) := GetGlobal.calls (S k) s1 in (r :: rs, s2)).
    destruct (GetGlobal.get_global s) as [[] s1] eqn:Hs.
    rewrite IH. simpl.
    replace s1 with (snd (GetGlobal.get_global s)) by (by rewrite Hs).
    rewrite get_global_again. reflexivity.
Qed.

(** X13. [get_global<A>] is lazy and balanced. Any number of calls returns the
    one instance, and only the first call changes the program. Over a
    whole run the constructor and the destructor of [A] write one line
    each when the accessor was called at all, and nothing when it never
    was. *)
Theorem get_global_lazy (k : nat) :
  (∀ s, GetGlobal.calls (S k) s =
          (replicate (S k) GetGlobal.instance, snd (GetGlobal.get_global s))) ∧
  GetGlobal.out (GetGlobal.whole_run 0) = [] ∧
  GetGlobal.out (GetGlobal.whole_run (S k)) =
    ["constructor called"; "destructor called"] ∧
  GetGlobal.instance_constructed (GetGlobal.whole_run k) = false.
Proof.
  split; [intros s; apply get_global_calls|]. split; [reflexivity|].
  unfold GetGlobal.whole_run. split.
  - rewrite get_global_calls. reflexivity.
  - destruct k as [|k]; [reflexivity|]. rewrite get_global_calls. reflexivity.
Qed.

(** X14. [Singleton4] is eager: over a whole run its constructor and its
    destructor write one line each, however often [get_instance] is
    called, also when it never is. *)
Theorem Singleton4_eager (k : nat) :
  Singleton4.out (Singleton4Lifetime.whole_run k) =
    ["constructor called"; "destructor called"] ∧
  Singleton4.constructor_calls (Singleton4Lifetime.whole_run k) = 1 ∧
  Singleton4.m_instance_constructed (Singleton4Lifetime.whole_run k) = false.
Proof.
  unfold Singleton4Lifetime.whole_run.
  rewrite Singleton4Spec.calls_unchanged. split_and!; reflexivity.
Qed.

End WholeRunSpec.

(* ===================================================================== *)
(** * [Singleton1]: every call, alone and together *)
(* ===================================================================== *)

Module DoubleCheckedLockingSpec.
Import Singleton1 Singleton1Lifetime.

Implicit Types (s : shared) (c : config) (p : pc) (l : loc).






End DoubleCheckedLockingSpec.
